(** * node-event-tracker: a shallow embedding of the decision engine

    The development follows the layout of the JavaScript sources:

    - [Sha256]: the digest behind [crypto.createHash('sha256')], needed
      because both the composite key and the details fingerprint are hex
      digests;
    - [Json]: the payload values handed to [trackEvent] and
      [JSON.stringify] with an array replacer, as used by
      [EventTracker.generateDetailsHash];
    - the event record, the in-memory storage adapter, the two throttling
      strategies and the tracker coordinator;
    - the properties of the specification, one theorem each.

    Conventions.  Timestamps ([Date.now()]) and counters are integers
    ([Z]); the values held in a record's [config] object and the token
    count of the token bucket are rationals ([Q]), because the refill rate
    may be fractional.  Floating-point rounding is not modelled.  Strings
    are byte strings: a JavaScript string is identified with its UTF-8
    encoding, which is exact on ASCII text.  Every [Date.now()] read of the
    source is an explicit argument of the embedded function.

    Outside the model: the Redis adapter, the timers (the background
    processor of the tracker and the periodic purge of the in-memory
    adapter, whose body [purgeExpired] is given) and the listeners of the
    event emitter; a notification is recorded as the call of [emit]. *)

From Stdlib Require Import ZArith QArith Qround Ascii String List Lia Lqa Qfield.
From stdpp Require Import gmap strings list fin_maps pretty.

Local Open Scope Z_scope.
#[local] Set Warnings "-register-all".

(** ** SHA-256 (FIPS 180-4), on 32-bit words represented in [Z] *)

Module Sha256.

Definition wrap32 (x : Z) : Z := x mod 2 ^ 32.

Definition add32 (x y : Z) : Z := wrap32 (x + y).

Definition not32 (x : Z) : Z := 4294967295 - x.

Definition rotr (n x : Z) : Z :=
  Z.lor (Z.shiftr x n) (wrap32 (Z.shiftl x (32 - n))).

Definition Ch (x y z : Z) : Z :=
  Z.lxor (Z.land x y) (Z.land (not32 x) z).

Definition Maj (x y z : Z) : Z :=
  Z.lxor (Z.lxor (Z.land x y) (Z.land x z)) (Z.land y z).

Definition bigSigma0 (x : Z) : Z :=
  Z.lxor (Z.lxor (rotr 2 x) (rotr 13 x)) (rotr 22 x).

Definition bigSigma1 (x : Z) : Z :=
  Z.lxor (Z.lxor (rotr 6 x) (rotr 11 x)) (rotr 25 x).

Definition smallSigma0 (x : Z) : Z :=
  Z.lxor (Z.lxor (rotr 7 x) (rotr 18 x)) (Z.shiftr x 3).

Definition smallSigma1 (x : Z) : Z :=
  Z.lxor (Z.lxor (rotr 17 x) (rotr 19 x)) (Z.shiftr x 10).

Definition K : list Z :=
  [ 1116352408; 1899447441; 3049323471; 3921009573; 961987163; 1508970993;
    2453635748; 2870763221; 3624381080; 310598401; 607225278; 1426881987;
    1925078388; 2162078206; 2614888103; 3248222580; 3835390401; 4022224774;
    264347078; 604807628; 770255983; 1249150122; 1555081692; 1996064986;
    2554220882; 2821834349; 2952996808; 3210313671; 3336571891; 3584528711;
    113926993; 338241895; 666307205; 773529912; 1294757372; 1396182291;
    1695183700; 1986661051; 2177026350; 2456956037; 2730485921; 2820302411;
    3259730800; 3345764771; 3516065817; 3600352804; 4094571909; 275423344;
    430227734; 506948616; 659060556; 883997877; 958139571; 1322822218;
    1537002063; 1747873779; 1955562222; 2024104815; 2227730452; 2361852424;
    2428436474; 2756734187; 3204031479; 3329325298 ].

Definition H0 : list Z :=
  [ 1779033703; 3144134277; 1013904242; 2773480762;
    1359893119; 2600822924; 528734635; 1541459225 ].

(** Padding: the message, one [0x80] byte, zero bytes up to 56 modulo 64,
    then the bit length as a 64-bit big-endian integer. *)

Fixpoint be_bytes (n : nat) (x : Z) : list Z :=
  match n with
  | O => []
  | S n' => be_bytes n' (Z.shiftr x 8) ++ [Z.land x 255]
  end.

Definition pad (msg : list Z) : list Z :=
  let len := Z.of_nat (length msg) in
  let zeros := Z.to_nat ((55 - len) mod 64) in
  msg ++ [128] ++ repeat 0 zeros ++ be_bytes 8 (8 * len).

Fixpoint be_words (fuel : nat) (bs : list Z) : list Z :=
  match fuel, bs with
  | S f, b0 :: b1 :: b2 :: b3 :: rest =>
      (Z.shiftl b0 24 + Z.shiftl b1 16 + Z.shiftl b2 8 + b3) :: be_words f rest
  | _, _ => []
  end.

(** The message schedule, through a sliding window of the last sixteen
    words. *)

Fixpoint schedule (n : nat) (window : list Z) : list Z :=
  match n with
  | O => []
  | S n' =>
      match window with
      | w0 :: rest =>
          let w1 := nth 0 rest 0 in
          let w9 := nth 8 rest 0 in
          let w14 := nth 13 rest 0 in
          let w16 :=
            add32 (add32 (smallSigma1 w14) w9) (add32 (smallSigma0 w1) w0) in
          w0 :: schedule n' (rest ++ [w16])
      | [] => []
      end
  end.

Record regs := Regs { ra : Z; rb : Z; rc : Z; rd : Z; re : Z; rf : Z; rg : Z; rh : Z }.

Definition round (s : regs) (kw : Z * Z) : regs :=
  let t1 :=
    add32 (add32 (add32 (rh s) (bigSigma1 (re s))) (Ch (re s) (rf s) (rg s)))
          (add32 (fst kw) (snd kw)) in
  let t2 := add32 (bigSigma0 (ra s)) (Maj (ra s) (rb s) (rc s)) in
  Regs (add32 t1 t2) (ra s) (rb s) (rc s) (add32 (rd s) t1) (re s) (rf s) (rg s).

Definition regs_of_list (l : list Z) : regs :=
  Regs (nth 0 l 0) (nth 1 l 0) (nth 2 l 0) (nth 3 l 0)
       (nth 4 l 0) (nth 5 l 0) (nth 6 l 0) (nth 7 l 0).

Definition list_of_regs (s : regs) : list Z :=
  [ra s; rb s; rc s; rd s; re s; rf s; rg s; rh s].

Definition compress (h : list Z) (block : list Z) : list Z :=
  let w := schedule 64 block in
  let s := fold_left round (combine K w) (regs_of_list h) in
  zip_with add32 h (list_of_regs s).

Fixpoint blocks (fuel : nat) (ws : list Z) : list (list Z) :=
  match fuel with
  | O => []
  | S f =>
      match ws with
      | [] => []
      | _ => firstn 16 ws :: blocks f (skipn 16 ws)
      end
  end.

Definition digest (msg : list Z) : list Z :=
  let bs := pad msg in
  let ws := be_words (length bs) bs in
  fold_left compress (blocks (length ws) ws) H0.

Definition hex_digit (d : Z) : ascii :=
  if d <? 10 then ascii_of_nat (Z.to_nat (48 + d))
  else ascii_of_nat (Z.to_nat (87 + d)).

Fixpoint hex_word (n : nat) (x : Z) : list ascii :=
  match n with
  | O => []
  | S n' => hex_word n' (Z.shiftr x 4) ++ [hex_digit (Z.land x 15)]
  end.

Definition bytes_of_string (s : string) : list Z :=
  map (fun c => Z.of_nat (nat_of_ascii c)) (list_ascii_of_string s).

(** [crypto.createHash('sha256').update(s).digest('hex')] *)
Definition sha256hex (s : string) : string :=
  string_of_list_ascii (concat (map (hex_word 8) (digest (bytes_of_string s)))).

End Sha256.

(** ** Payload values and [JSON.stringify] with an array replacer *)

Module Json.

Local Open Scope string_scope.

(** The values a caller can pass as [details].  An object is the list of
    its own enumerable properties, each key occurring once; a property
    read takes the first binding.  Numbers are the integers that
    JavaScript prints in plain decimal notation. *)
Inductive value :=
| Undefined
| Null
| Bool (b : bool)
| Num (n : Z)
| Str (s : string)
| Arr (items : list value)
| Obj (props : list (string * value)).

Definition hex4 (n : Z) : string :=
  string_of_list_ascii (Sha256.hex_word 4 n).

(** QuoteJSONString: the two-character escapes, [\u00xx] for the other
    control characters, every other code unit as it is. *)
Definition escape_char (c : ascii) : string :=
  let n := Z.of_nat (nat_of_ascii c) in
  if (n =? 8)%Z then "\b"
  else if (n =? 9)%Z then "\t"
  else if (n =? 10)%Z then "\n"
  else if (n =? 12)%Z then "\f"
  else if (n =? 13)%Z then "\r"
  else if (n =? 34)%Z then String "\" (String c "")
  else if (n =? 92)%Z then "\\"
  else if (n <? 32)%Z then "\u" ++ hex4 n
  else String c "".

Fixpoint escape (s : string) : string :=
  match s with
  | EmptyString => ""
  | String c s' => escape_char c ++ escape s'
  end.

Definition dquote : string := String (ascii_of_nat 34) "".

Definition quote (s : string) : string := dquote ++ escape s ++ dquote.

Fixpoint join (sep : string) (parts : list string) : string :=
  match parts with
  | [] => ""
  | [p] => p
  | p :: rest => p ++ sep ++ join sep rest
  end.

(** The PropertyList built from a replacer array of strings: its
    elements in order, each kept at its first occurrence. *)
Fixpoint property_list (seen : list string) (replacer : list string) : list string :=
  match replacer with
  | [] => []
  | k :: rest =>
      if existsb (String.eqb k) seen then property_list seen rest
      else k :: property_list (k :: seen) rest
  end.

(** SerializeJSONProperty with a PropertyList [plist]; [None] is the
    JavaScript [undefined] (the property is left out of an object, and
    written [null] in an array).  An object writes the keys of [plist]
    it owns, in the order of [plist], at every depth. *)
Fixpoint serialize (plist : list string) (v : value) : option string :=
  match v with
  | Undefined => None
  | Null => Some "null"
  | Bool true => Some "true"
  | Bool false => Some "false"
  | Num n => Some (pretty n)
  | Str s => Some (quote s)
  | Arr items =>
      let elem := fun x =>
        match serialize plist x with Some t => t | None => "null" end in
      Some ("[" ++ join "," (map elem items) ++ "]")
  | Obj props =>
      let fix member (ps : list (string * value)) (k : string) : list string :=
        match ps with
        | [] => []
        | (k', x) :: ps' =>
            if String.eqb k k' then
              match serialize plist x with
              | Some t => [quote k ++ ":" ++ t]
              | None => []
              end
            else member ps' k
        end in
      Some ("{" ++ join "," (concat (map (member props) plist)) ++ "}")
  end.

(** [JSON.stringify(v, replacer)] for an array [replacer] of strings. *)
Definition stringify (v : value) (replacer : list string) : option string :=
  serialize (property_list [] replacer) v.

(** [Object.keys(v)] for an object or an array. *)
Definition keys (v : value) : list string :=
  match v with
  | Obj props => map fst props
  | Arr items => map (fun i : nat => pretty i) (seq 0 (length items))
  | _ => []
  end.

(** [Array.prototype.sort()] without a comparator: ascending order of
    the code units. *)
Fixpoint insert_sorted (k : string) (l : list string) : list string :=
  match l with
  | [] => [k]
  | h :: t => if String.leb k h then k :: l else h :: insert_sorted k t
  end.

Definition sort (l : list string) : list string :=
  fold_right insert_sorted [] l.

(** [typeof v === 'object'] together with truthiness: objects and arrays
    only ([null] is an object by [typeof] but falsy). *)
Definition is_object (v : value) : bool :=
  match v with
  | Arr _ | Obj _ => true
  | _ => false
  end.

End Json.

(** ** The event record *)

(** The value of [scheduledSendAt] when it is not [null]: a number, which
    can be [Infinity] (a refill rate of zero) or [NaN] (a missing
    configuration field). *)
Inductive jsnum :=
| Finite (q : Q)
| Infinity
| NaN.

(** [strategyData] of the token bucket. *)
Record StrategyData := { tokens : Q; lastRefill : Z }.

Module EventRecord.

Record t := mk {
  key : string;
  category : string;
  id : string;
  details : Json.value;
  detailsHash : string;
  count : Z;
  lastEventTime : Z;
  expiresAt : Z;
  deferred : bool;
  scheduledSendAt : option jsnum;
  config : gmap string Q;
  strategyData : option StrategyData
}.

(** Field assignments [record.f = v]. *)

Definition set_count (v : Z) (r : t) : t :=
  mk (key r) (category r) (id r) (details r) (detailsHash r) v
     (lastEventTime r) (expiresAt r) (deferred r) (scheduledSendAt r)
     (config r) (strategyData r).

Definition set_lastEventTime (v : Z) (r : t) : t :=
  mk (key r) (category r) (id r) (details r) (detailsHash r) (count r)
     v (expiresAt r) (deferred r) (scheduledSendAt r)
     (config r) (strategyData r).

Definition set_expiresAt (v : Z) (r : t) : t :=
  mk (key r) (category r) (id r) (details r) (detailsHash r) (count r)
     (lastEventTime r) v (deferred r) (scheduledSendAt r)
     (config r) (strategyData r).

Definition set_deferred (v : bool) (r : t) : t :=
  mk (key r) (category r) (id r) (details r) (detailsHash r) (count r)
     (lastEventTime r) (expiresAt r) v (scheduledSendAt r)
     (config r) (strategyData r).

Definition set_scheduledSendAt (v : option jsnum) (r : t) : t :=
  mk (key r) (category r) (id r) (details r) (detailsHash r) (count r)
     (lastEventTime r) (expiresAt r) (deferred r) v
     (config r) (strategyData r).

Definition set_config (v : gmap string Q) (r : t) : t :=
  mk (key r) (category r) (id r) (details r) (detailsHash r) (count r)
     (lastEventTime r) (expiresAt r) (deferred r) (scheduledSendAt r)
     v (strategyData r).

Definition set_strategyData (v : option StrategyData) (r : t) : t :=
  mk (key r) (category r) (id r) (details r) (detailsHash r) (count r)
     (lastEventTime r) (expiresAt r) (deferred r) (scheduledSendAt r)
     (config r) v.

End EventRecord.

(** The [eventData] object handed from the tracker to the strategy. *)
Module EventData.

Record t := mk {
  compositeKey : string;
  category : string;
  id : string;
  details : Json.value;
  detailsHash : string
}.

End EventData.

Inductive Outcome := Immediate | Deferred | Ignored.

Definition outcome_name (o : Outcome) : string :=
  match o with
  | Immediate => "immediate"
  | Deferred => "deferred"
  | Ignored => "ignored"
  end.

(** ** Numbers of a record's [config] *)

Definition Qltb (x y : Q) : bool := negb (Qle_bool y x).

(** [Math.min] on finite numbers. *)
Definition Qmin_js (x y : Q) : Q := if Qle_bool x y then x else y.

(** [record.scheduledSendAt] in a boolean position: [null], [0] and [NaN]
    are falsy. *)
Definition truthy (x : option jsnum) : bool :=
  match x with
  | Some (Finite q) => negb (Qeq_bool q 0%Q)
  | Some Infinity => true
  | Some NaN => false
  | None => false
  end.

(** [timestamp >= x]; [null] converts to [0], a comparison with [NaN] is
    false. *)
Definition time_ge (timestamp : Z) (x : option jsnum) : bool :=
  match x with
  | Some (Finite q) => Qle_bool q (inject_Z timestamp)
  | Some Infinity => false
  | Some NaN => false
  | None => 0 <=? timestamp
  end.

(** ** storage/InMemoryAdapter.js

    [this.events] is a [Map] from composite key to record.  The map holds
    references and the strategies assign to the record they were given;
    every such assignment is followed by [set] under the same key before
    control returns to the caller, so the sequential behaviour is that of
    a map of values.  The order in which a [Map] is iterated (insertion
    order) is not modelled: [findDueDeferred] yields the due records in the
    order of the finite map. *)

Module InMemoryAdapter.

Definition get (key : string) (events : gmap string EventRecord.t)
  : option EventRecord.t :=
  events !! key.

Definition set (key : string) (record : EventRecord.t)
  (events : gmap string EventRecord.t) : gmap string EventRecord.t :=
  <[key := record]> events.

Definition delete (key : string) (events : gmap string EventRecord.t)
  : gmap string EventRecord.t :=
  base.delete key events.

Definition size (events : gmap string EventRecord.t) : Z :=
  Z.of_nat (base.size events).

Definition is_due (timestamp : Z) (record : EventRecord.t) : bool :=
  EventRecord.deferred record
  && truthy (EventRecord.scheduledSendAt record)
  && time_ge timestamp (EventRecord.scheduledSendAt record).

Definition findDueDeferred (timestamp : Z) (events : gmap string EventRecord.t)
  : list EventRecord.t :=
  List.filter (is_due timestamp) (map snd (map_to_list events)).

(** The periodic sweep; [now] is its [Date.now()]. *)
Definition purgeExpired (now : Z) (events : gmap string EventRecord.t)
  : gmap string EventRecord.t :=
  base.filter (fun kr => negb (now >? EventRecord.expiresAt (snd kr)) = true) events.

End InMemoryAdapter.

(** ** strategies/BaseStrategy.js *)

(** What an [async] strategy call settles to: a value, or a thrown error. *)
Inductive Result (A : Type) :=
| Ok (a : A)
| Error (message : string).

Arguments Ok {A} a.
Arguments Error {A} message.

(** The fields of the parent tracker a strategy reads through
    [this.tracker], and [maxKeys] beside them.  A strategy is taken to have
    been constructed with the tracker that uses it, as the constructor of
    [BaseStrategy] documents. *)
Record TrackerOptions := {
  limit : Z;
  deferInterval : Z;
  expireTime : Z;
  maxKeys : Z
}.

(** The interface: [track(record, eventData)], with the strategy's own
    [Date.now()] as the argument [now]. *)
Record Strategy := {
  track : TrackerOptions -> Z -> option EventRecord.t -> EventData.t ->
          Result (Outcome * EventRecord.t)
}.

Definition BaseStrategy : Strategy :=
  {| track := fun _ _ _ _ =>
       Error "Strategy.track() must be implemented by subclasses." |}.

(** ** strategies/SimpleCounterStrategy.js *)

(** [count > config.limit]; a missing field is [undefined] and the
    comparison is false. *)
Definition exceeds (count : Z) (limit : option Q) : bool :=
  match limit with
  | Some l => Qltb l (inject_Z count)
  | None => false
  end.

(** [now + x] for a configuration field [x]; a missing field gives [NaN]. *)
Definition time_plus (now : Z) (x : option Q) : jsnum :=
  match x with
  | Some d => Finite (inject_Z now + d)%Q
  | None => NaN
  end.

Definition SimpleCounterStrategy_track (tracker : TrackerOptions) (now : Z)
  (record : option EventRecord.t) (eventData : EventData.t)
  : Result (Outcome * EventRecord.t) :=
  let updatedRecord :=
    match record with
    | None =>
        EventRecord.mk
          (EventData.compositeKey eventData)
          (EventData.category eventData)
          (EventData.id eventData)
          (EventData.details eventData)
          (EventData.detailsHash eventData)
          1
          now
          (now + expireTime tracker)
          false
          None
          {[ "limit" := inject_Z (limit tracker);
             "deferInterval" := inject_Z (deferInterval tracker) ]}
          None
    | Some r =>
        EventRecord.set_expiresAt (now + expireTime tracker)
          (EventRecord.set_lastEventTime now
             (EventRecord.set_count (EventRecord.count r + 1) r))
    end in
  if EventRecord.deferred updatedRecord then
    Ok (Ignored, updatedRecord)
  else if exceeds (EventRecord.count updatedRecord)
                  (EventRecord.config updatedRecord !! "limit") then
    Ok (Deferred,
        EventRecord.set_scheduledSendAt
          (Some (time_plus now (EventRecord.config updatedRecord !! "deferInterval")))
          (EventRecord.set_deferred true updatedRecord))
  else
    Ok (Immediate, updatedRecord).

Definition SimpleCounterStrategy : Strategy :=
  {| track := SimpleCounterStrategy_track |}.

(** ** strategies/TokenBucketStrategy.js *)

Definition DEFAULT_BUCKET_SIZE : Q := 10%Q.
Definition DEFAULT_REFILL_RATE : Q := 1%Q.

(** [Math.floor(elapsedSeconds * config.refillRate)]; [None] is [NaN]. *)
Definition tokensToAdd (elapsedSeconds : Q) (refillRate : option Q) : option Z :=
  match refillRate with
  | Some rate => Some (Qfloor (elapsedSeconds * rate)%Q)
  | None => None
  end.

(** [Math.min(config.bucketSize, tokens + tokensToAdd)]; [None] is [NaN]. *)
Definition refilled (bucketSize : option Q) (tokens : Q) (toAdd : Z) : option Q :=
  match bucketSize with
  | Some b => Some (Qmin_js b (tokens + inject_Z toAdd)%Q)
  | None => None
  end.

(** [now + (1 / config.refillRate) * 1000] *)
Definition retry_time (now : Z) (refillRate : option Q) : jsnum :=
  match refillRate with
  | Some rate =>
      if Qeq_bool rate 0%Q then Infinity
      else Finite (inject_Z now + (1 / rate) * 1000)%Q
  | None => NaN
  end.

(** "Refill the bucket": the tokens available to this occurrence
    ([currentTokens], [None] when it is [NaN]) and the value
    [strategyData.lastRefill] has afterwards. *)
Definition refill (config : gmap string Q) (sd : StrategyData) (now : Z)
  : option Q * Z :=
  let elapsedSeconds := (inject_Z (now - lastRefill sd) / 1000)%Q in
  let toAdd := tokensToAdd elapsedSeconds (config !! "refillRate") in
  match toAdd with
  | Some n =>
      if 0 <? n then (refilled (config !! "bucketSize") (tokens sd) n, now)
      else (Some (tokens sd), lastRefill sd)
  | None => (Some (tokens sd), lastRefill sd)
  end.

(** [currentTokens >= 1] *)
Definition has_token (currentTokens : option Q) : bool :=
  match currentTokens with
  | Some c => Qle_bool 1%Q c
  | None => false
  end.

Definition TokenBucketStrategy_track (bucketSize refillRate : Q)
  (tracker : TrackerOptions) (now : Z)
  (record : option EventRecord.t) (eventData : EventData.t)
  : Result (Outcome * EventRecord.t) :=
  match record with
  | None =>
      Ok (Immediate,
          EventRecord.mk
            (EventData.compositeKey eventData)
            (EventData.category eventData)
            (EventData.id eventData)
            (EventData.details eventData)
            (EventData.detailsHash eventData)
            1
            now
            (now + expireTime tracker)
            false
            None
            {[ "bucketSize" := bucketSize;
               "refillRate" := refillRate;
               "deferInterval" := inject_Z (deferInterval tracker) ]}
            (Some {| tokens := (bucketSize - 1)%Q; lastRefill := now |}))
  | Some updatedRecord =>
      match EventRecord.strategyData updatedRecord with
      | None =>
          Error "TypeError: Cannot destructure property 'tokens' of 'updatedRecord.strategyData' as it is undefined."
      | Some sd =>
          let config := EventRecord.config updatedRecord in
          let currentTokens := fst (refill config sd now) in
          let lastRefill' := snd (refill config sd now) in
          if has_token currentTokens then
            let tokens' := match currentTokens with Some c => (c - 1)%Q | None => tokens sd end in
            Ok (Immediate,
                EventRecord.set_scheduledSendAt None
                  (EventRecord.set_deferred false
                     (EventRecord.set_expiresAt (now + expireTime tracker)
                        (EventRecord.set_lastEventTime now
                           (EventRecord.set_count (EventRecord.count updatedRecord + 1)
                              (EventRecord.set_strategyData
                                 (Some {| tokens := tokens'; lastRefill := lastRefill' |})
                                 updatedRecord))))))
          else
            Ok (Deferred,
                EventRecord.set_scheduledSendAt
                  (Some (retry_time now (config !! "refillRate")))
                  (EventRecord.set_deferred true
                     (EventRecord.set_strategyData
                        (Some {| tokens := tokens sd; lastRefill := lastRefill' |})
                        updatedRecord)))
      end
  end.

(** [new TokenBucketStrategy(tracker, { bucketSize, refillRate })] *)
Definition TokenBucketStrategy (bucketSize refillRate : option Q) : Strategy :=
  {| track := TokenBucketStrategy_track
                (default DEFAULT_BUCKET_SIZE bucketSize)
                (default DEFAULT_REFILL_RATE refillRate) |}.

(** ** index.js: the tracker coordinator *)

Definition DEFAULT_LIMIT : Z := 5.
Definition DEFAULT_DEFER_INTERVAL_MS : Z := 60 * 60 * 1000.
Definition DEFAULT_EXPIRE_TIME_MS : Z := 24 * 60 * 60 * 1000.

Record EventTracker := {
  options : TrackerOptions;
  strategy : Strategy
}.

(** The constructor; an absent option is [None].  The storage is a new
    [InMemoryAdapter]; the background processor is not modelled. *)
Definition newEventTracker (limit deferInterval expireTime maxKeys : option Z)
  (strategy : option Strategy) : EventTracker :=
  {| options :=
       {| limit := default DEFAULT_LIMIT limit;
          deferInterval := default DEFAULT_DEFER_INTERVAL_MS deferInterval;
          expireTime := default DEFAULT_EXPIRE_TIME_MS expireTime;
          maxKeys := default 0 maxKeys |};
     strategy := default SimpleCounterStrategy strategy |}.

(** What [emit] was called with: the event name and its argument. *)
Inductive Payload :=
| RecordPayload (record : EventRecord.t)
| IgnoredInfo (reason category id : string) (details : Json.value).

Record Emission := { event : string; payload : Payload }.

(** The state the operations act on: the adapter's map and the
    notifications emitted so far, oldest first. *)
Record World := {
  events : gmap string EventRecord.t;
  emitted : list Emission
}.

(** An operation runs on a world and either returns or throws; both leave
    a world behind. *)
Inductive Completion (A : Type) :=
| Return (a : A) (w : World)
| Throw (message : string) (w : World).

Arguments Return {A} a w.
Arguments Throw {A} message w.

Definition M (A : Type) : Type := World -> Completion A.

Definition ret {A} (a : A) : M A := fun w => Return a w.

Definition bind {A B} (c : M A) (k : A -> M B) : M B :=
  fun w =>
    match c w with
    | Return a w' => k a w'
    | Throw e w' => Throw e w'
    end.

Notation "'let*' x ':=' c 'in' k" := (bind c (fun x => k))
  (at level 10, x name, c at level 100, k at level 200).
Notation "c ';;' k" := (bind c (fun _ => k))
  (at level 100, k at level 200, right associativity).

Definition settle {A} (r : Result A) : M A :=
  fun w =>
    match r with
    | Ok a => Return a w
    | Error e => Throw e w
    end.

Definition storage_get (key : string) : M (option EventRecord.t) :=
  fun w => Return (InMemoryAdapter.get key (events w)) w.

Definition storage_set (key : string) (record : EventRecord.t) : M unit :=
  fun w =>
    Return tt {| events := InMemoryAdapter.set key record (events w);
                 emitted := emitted w |}.

Definition storage_delete (key : string) : M unit :=
  fun w =>
    Return tt {| events := InMemoryAdapter.delete key (events w);
                 emitted := emitted w |}.

Definition storage_size : M Z :=
  fun w => Return (InMemoryAdapter.size (events w)) w.

Definition storage_findDueDeferred (timestamp : Z) : M (list EventRecord.t) :=
  fun w => Return (InMemoryAdapter.findDueDeferred timestamp (events w)) w.

Definition emit (event : string) (payload : Payload) : M unit :=
  fun w =>
    Return tt {| events := events w;
                 emitted := emitted w ++ [{| event := event; payload := payload |}] |}.

Fixpoint for_each {A} (l : list A) (body : A -> M unit) : M unit :=
  match l with
  | [] => ret tt
  | x :: rest => body x ;; for_each rest body
  end.

Definition generateDetailsHash (details : Json.value) : string :=
  if Json.is_object details then
    let sortedKeys := Json.sort (Json.keys details) in
    (* an object or array always serializes to a string *)
    let detailsString := default "" (Json.stringify details sortedKeys) in
    Sha256.sha256hex detailsString
  else "".

Definition generateCompositeKey (category id : string) : string :=
  let composite := category +:+ ":" +:+ id in
  Sha256.sha256hex composite.

(** The object [trackEvent] resolves to: [{ type, reason }] or
    [{ type, data }]. *)
Record TrackResult := {
  type : Outcome;
  reason : option string;
  data : option EventRecord.t
}.

(** [trackEvent]; [now] is its own [Date.now()] and [strategyNow] the one
    read inside [strategy.track]. *)
Definition trackEvent (this : EventTracker) (now strategyNow : Z)
  (category id : string) (details : Json.value) : M TrackResult :=
  let compositeKey := generateCompositeKey category id in
  let detailsHash := generateDetailsHash details in
  let* stored := storage_get compositeKey in
  let isExpired :=
    match stored with
    | Some r => now >? EventRecord.expiresAt r
    | None => false
    end in
  let detailsChanged :=
    match stored with
    | Some r => negb (String.eqb (EventRecord.detailsHash r) detailsHash)
    | None => false
    end in
  let record := if isExpired || detailsChanged then None else stored in
  let proceed : M TrackResult :=
    let eventData := EventData.mk compositeKey category id details detailsHash in
    let* tracked := settle (track (strategy this) (options this) strategyNow record eventData) in
    let outcome := fst tracked in
    let updatedRecord := snd tracked in
    storage_set compositeKey updatedRecord ;;
    emit "tracked" (RecordPayload updatedRecord) ;;
    emit (outcome_name outcome) (RecordPayload updatedRecord) ;;
    ret {| type := outcome; reason := None; data := Some updatedRecord |} in
  if negb (bool_decide (is_Some record)) && (0 <? maxKeys (options this)) then
    let* size := storage_size in
    if maxKeys (options this) <=? size then
      emit "ignored" (IgnoredInfo "key_limit_reached" category id details) ;;
      ret {| type := Ignored; reason := Some "key_limit_reached"; data := None |}
    else proceed
  else proceed.

Definition processDeferredEvents (this : EventTracker) (now : Z)
  : M (list EventRecord.t) :=
  let* dueEvents := storage_findDueDeferred now in
  for_each dueEvents (fun event =>
    storage_delete (EventRecord.key event) ;;
    emit "processed" (RecordPayload event)) ;;
  ret dueEvents.

(** [{ ...config, ...newConfig }]: the fields of [newConfig], and those of
    [config] that [newConfig] does not have. *)
Definition spread (config newConfig : gmap string Q) : gmap string Q :=
  newConfig ∪ config.

Definition updateConfig (this : EventTracker) (category id : string)
  (newConfig : gmap string Q) : M bool :=
  let compositeKey := generateCompositeKey category id in
  let* stored := storage_get compositeKey in
  match stored with
  | None => ret false
  | Some record =>
      let record' :=
        EventRecord.set_config (spread (EventRecord.config record) newConfig) record in
      storage_set compositeKey record' ;;
      emit "config_updated" (RecordPayload record') ;;
      ret true
  end.

(** ** Runs and states the properties speak about *)

(** One call of [trackEvent]: the tracker as configured at that moment and
    the two clock readings of the call. *)
Record Occurrence := {
  occ_tracker : EventTracker;
  occ_now : Z;
  occ_strategyNow : Z
}.

(** Successive [await tracker.trackEvent(category, id, details)] with the
    same arguments, collecting what each call resolves to. *)
Fixpoint trackEvents (calls : list Occurrence) (category id : string)
  (details : Json.value) : M (list TrackResult) :=
  match calls with
  | [] => ret []
  | c :: rest =>
      let* r := trackEvent (occ_tracker c) (occ_now c) (occ_strategyNow c)
                  category id details in
      let* rs := trackEvents rest category id details in
      ret (r :: rs)
  end.

(** [n] calls of one tracker with every clock reading equal to [now]. *)
Definition back_to_back (this : EventTracker) (now : Z) (n : nat) : list Occurrence :=
  replicate n {| occ_tracker := this; occ_now := now; occ_strategyNow := now |}.

(** No call of the run reads the clock after [expiresAt], the expiry of
    the record as the previous call left it. *)
Fixpoint no_expiry (expiresAt : Z) (calls : list Occurrence) : Prop :=
  match calls with
  | [] => True
  | c :: rest =>
      occ_now c <= expiresAt
      /\ no_expiry (occ_strategyNow c + expireTime (options (occ_tracker c))) rest
  end.

(** The same for a run that creates the record with its first call. *)
Definition no_expiry_after_first (calls : list Occurrence) : Prop :=
  match calls with
  | [] => True
  | c :: rest =>
      no_expiry (occ_strategyNow c + expireTime (options (occ_tracker c))) rest
  end.

(** The record read at [now] for an occurrence with fingerprint
    [detailsHash] is one [trackEvent] keeps ... *)
Definition current (now : Z) (detailsHash : string) (r : EventRecord.t) : Prop :=
  now <= EventRecord.expiresAt r /\ EventRecord.detailsHash r = detailsHash.

(** ... or one it treats as a new event. *)
Definition superseded (now : Z) (detailsHash : string) (r : EventRecord.t) : Prop :=
  EventRecord.expiresAt r < now \/ EventRecord.detailsHash r <> detailsHash.

(** The guard [this.maxKeys > 0 && (await this.storage.size()) >= this.maxKeys]. *)
Definition key_limit_reached (opts : TrackerOptions)
  (events : gmap string EventRecord.t) : Prop :=
  0 < maxKeys opts /\ maxKeys opts <= InMemoryAdapter.size events.

(** Every record sits under the key it carries; the strategies create
    records with [key: compositeKey] and [trackEvent] stores them under
    [compositeKey]. *)
Definition stored_under_own_key (events : gmap string EventRecord.t) : Prop :=
  forall k r, events !! k = Some r -> EventRecord.key r = k.

(** The outcomes the specification gives for [n] occurrences of a new
    key under the counter strategy with limit [L]: [immediate] [L] times,
    [deferred] once, [ignored] from then on.  The runs of the embedded
    code are compared with it. *)
Definition counter_outcomes (L : Z) (n : nat) : list Outcome :=
  take n (replicate (Z.to_nat L) Immediate ++ Deferred :: replicate n Ignored).

(** The configuration snapshots taken at creation. *)
Definition counter_snapshot (opts : TrackerOptions) : gmap string Q :=
  {[ "limit" := inject_Z (limit opts);
     "deferInterval" := inject_Z (deferInterval opts) ]}.

Definition bucket_snapshot (bucketSize refillRate : Q) (opts : TrackerOptions)
  : gmap string Q :=
  {[ "bucketSize" := bucketSize;
     "refillRate" := refillRate;
     "deferInterval" := inject_Z (deferInterval opts) ]}.

Definition result_outcomes (rs : list TrackResult) : list Outcome := map type rs.

Definition result_counts (rs : list TrackResult) : list (option Z) :=
  map (fun r => EventRecord.count <$> data r) rs.

Definition result_schedules (rs : list TrackResult) : list (option jsnum) :=
  map (fun r => data r ≫= EventRecord.scheduledSendAt) rs.

Definition empty_world : World := {| events := ∅; emitted := [] |}.

(** What [trackEvent] does with the strategy's answer: the write under
    the composite key, the notifications [tracked] and the outcome's own,
    and the returned object; a thrown error leaves the world as it was. *)
Definition persisted (compositeKey : string)
  (tracked : Result (Outcome * EventRecord.t)) (w : World) : Completion TrackResult :=
  match tracked with
  | Ok (outcome, updatedRecord) =>
      Return {| type := outcome; reason := None; data := Some updatedRecord |}
             {| events := <[compositeKey := updatedRecord]> (events w);
                emitted := emitted w
                           ++ [ {| event := "tracked"; payload := RecordPayload updatedRecord |};
                                {| event := outcome_name outcome;
                                   payload := RecordPayload updatedRecord |} ] |}
  | Error e => Throw e w
  end.

Definition event_data (category id : string) (details : Json.value) : EventData.t :=
  EventData.mk (generateCompositeKey category id) category id details
               (generateDetailsHash details).

(** The counter strategy as a machine on [(deferred, count)]: the outcomes
    of [n] further occurrences for a record whose [config.limit] reads
    [limit]. *)
Fixpoint counter_trace (limit : option Q) (deferred : bool) (count : Z) (n : nat)
  : list Outcome :=
  match n with
  | O => []
  | S n' =>
      if deferred then Ignored :: counter_trace limit true (count + 1) n'
      else if exceeds (count + 1) limit then
        Deferred :: counter_trace limit true (count + 1) n'
      else Immediate :: counter_trace limit false (count + 1) n'
  end.

(** The two strategies the package ships. *)
Inductive shipped : Strategy -> Prop :=
| shipped_counter : shipped SimpleCounterStrategy
| shipped_bucket (bucketSize refillRate : option Q) :
    shipped (TokenBucketStrategy bucketSize refillRate).

(** The world in which the record under [key] was never written. *)
Definition never_seen (key : string) (w : World) : World :=
  {| events := delete key (events w); emitted := emitted w |}.

(** The counts [count + 1, ..., count + n]. *)
Definition counts_from (count : Z) (n : nat) : list (option Z) :=
  map (fun i => Some (count + Z.of_nat i)) (seq 1 n).

(** The token bucket over [n] occurrences between which no token is
    added: an occurrence is admitted while a whole token is left. *)
Fixpoint bucket_trace (tokens : Q) (n : nat) : list Outcome :=
  match n with
  | O => []
  | S n' =>
      if Qle_bool 1%Q tokens then Immediate :: bucket_trace (tokens - 1)%Q n'
      else Deferred :: bucket_trace tokens n'
  end.

(** What [scheduledSendAt] reads on the record an outcome of the token
    bucket comes with. *)
Definition bucket_schedule (now : Z) (refillRate : option Q) (o : Outcome)
  : option jsnum :=
  match o with
  | Deferred => Some (retry_time now refillRate)
  | _ => None
  end.

Definition returned {A} (c : Completion A) : option A :=
  match c with
  | Return a _ => Some a
  | Throw _ _ => None
  end.

Definition world_after {A} (c : Completion A) : World :=
  match c with
  | Return _ w => w
  | Throw _ w => w
  end.

(** Payloads that differ in a nested field only: [{ a: { x: n } }]. *)
Definition nested_payload (a x : string) (v : Json.value) : Json.value :=
  Json.Obj [(a, Json.Obj [(x, v)])].

Definition returned_record (c : Completion TrackResult) : option EventRecord.t :=
  match c with
  | Return r _ => data r
  | Throw _ _ => None
  end.

(** ** Concrete trackers, payloads and worlds used in the examples *)

(** The payload of the README's quick start. *)
Definition quickstart_details : Json.value :=
  Json.Obj [("code", Json.Str "E_CONN"); ("host", Json.Str "db-1")].

Definition other_details : Json.value :=
  Json.Obj [("code", Json.Str "E_TIMEOUT"); ("host", Json.Str "db-1")].

(** [new EventTracker({ limit: 5, expireTime: 60 * 1000 })] *)
Definition quickstart_tracker : EventTracker :=
  newEventTracker (Some 5) None (Some (60 * 1000)) None None.

(** [new EventTracker({ limit: 5, maxKeys: 1 })] *)
Definition single_key_tracker : EventTracker :=
  newEventTracker (Some 5) None None (Some 1) None.

(** [new EventTracker({ limit: 0 })] *)
Definition zero_limit_tracker : EventTracker :=
  newEventTracker (Some 0) None None None None.

(** [new EventTracker({ strategy: new TokenBucketStrategy(tracker, { bucketSize: 1, refillRate: 1 }) })] *)
Definition one_token_tracker : EventTracker :=
  newEventTracker None None None None (Some (TokenBucketStrategy (Some 1%Q) (Some 1%Q))).

(** The store of [single_key_tracker] after one occurrence of
    [database_errors]/[user-service], and after two. *)
Definition one_key_world : World :=
  world_after (trackEvent single_key_tracker 0 0 "database_errors" "user-service"
                 quickstart_details empty_world).

Definition one_key_twice_world : World :=
  world_after (trackEvent single_key_tracker 1 1 "database_errors" "user-service"
                 quickstart_details one_key_world).

(** A record of the counter strategy for [database_errors]/[user-service],
    created at time [0] under the default options. *)
Definition counter_record (count : Z) (deferred : bool)
  (scheduledSendAt : option jsnum) : EventRecord.t :=
  EventRecord.mk
    (generateCompositeKey "database_errors" "user-service")
    "database_errors" "user-service" quickstart_details
    (generateDetailsHash quickstart_details)
    count 0 DEFAULT_EXPIRE_TIME_MS deferred scheduledSendAt
    (counter_snapshot (options (newEventTracker None None None None None)))
    None.

(** A record of the token bucket with bucket size [1], out of tokens and
    deferred at time [0]. *)
Definition empty_bucket_record : EventRecord.t :=
  EventRecord.mk
    (generateCompositeKey "database_errors" "user-service")
    "database_errors" "user-service" quickstart_details
    (generateDetailsHash quickstart_details)
    1 0 DEFAULT_EXPIRE_TIME_MS true (Some (Finite 1000%Q))
    (bucket_snapshot 1%Q 1%Q (options one_token_tracker))
    (Some {| tokens := 0%Q; lastRefill := 0 |}).

Definition world_with (r : EventRecord.t) : World :=
  {| events := {[ EventRecord.key r := r ]}; emitted := [] |}.

(** The store of [one_token_tracker] after two occurrences at time [0]. *)
Definition spent_bucket_world : World :=
  world_after (trackEvents (back_to_back one_token_tracker 0 2)
                 "database_errors" "user-service" quickstart_details empty_world).

Definition quickstart_run : Completion (list TrackResult) :=
  trackEvents (back_to_back quickstart_tracker 0 7)
    "database_errors" "user-service" quickstart_details empty_world.

Definition sample_key : string :=
  generateCompositeKey "database_errors" "user-service".

(** A third occurrence for [sample_key] whose details differ, in the
    store of [single_key_tracker]. *)
Definition changed_details_call : M TrackResult :=
  trackEvent single_key_tracker 2 2 "database_errors" "user-service" other_details.

(** An occurrence after the expiry of a record, with a limit of zero. *)
Definition expired_zero_limit_call : Completion TrackResult :=
  trackEvent zero_limit_tracker 86400001 86400001
    "database_errors" "user-service" quickstart_details
    (world_with (counter_record 3 false None)).

(** A record of the counter strategy that was deferred at time [0] and is
    due at [3600000]. *)
Definition deferred_record : EventRecord.t :=
  counter_record 6 true (Some (Finite 3600000%Q)).

Definition gateway_details : Json.value := Json.Obj [("code", Json.Num 503)].

(** ** The rest of the coordinator and what the further properties speak about *)

(** [getDeferredEvents]; [now] is its [Date.now()].  The in-memory adapter
    has no [findAllDeferred], so the tracker asks for the records due at
    a far horizon. *)
Definition getDeferredEvents (this : EventTracker) (now : Z)
  : M (list EventRecord.t) :=
  let horizon := now + deferInterval (options this) * 365 in
  storage_findDueDeferred horizon.

(** What one run of the interval callback of [startProcessor] reports:
    nothing, or the [error] notification it emitted.  That notification
    carries an error, not a record, and is given as the result of the
    tick. *)
Inductive TickReport :=
| Quiet
| ErrorEmitted (message : string).

(** The body of the interval callback; [now] is the [Date.now()] of
    [processDeferredEvents] and [onDeferredEventDue] the handler given to
    the constructor.  An [EventEmitter] without a listener for [error]
    throws the error it is asked to emit: [errorListener] says whether
    there is one. *)
Definition processorTick (this : EventTracker) (now : Z)
  (onDeferredEventDue : list EventRecord.t -> M unit) (errorListener : bool)
  : M TickReport :=
  fun w =>
    let attempt : M unit :=
      let* dueEvents := processDeferredEvents this now in
      if (0 <? length dueEvents)%nat then onDeferredEventDue dueEvents
      else ret tt in
    match attempt w with
    | Return _ w' => Return Quiet w'
    | Throw error w' =>
        if errorListener then Return (ErrorEmitted error) w'
        else Throw error w'
    end.

(** The periodic sweep of the adapter, as a step of the world. *)
Definition purge (now : Z) (w : World) : World :=
  {| events := InMemoryAdapter.purgeExpired now (events w); emitted := emitted w |}.

(** The worlds one tracker with its in-memory adapter can be in: the
    operations of the tracker and the sweep of the adapter, from the empty
    store. *)
Inductive reachable (this : EventTracker) : World -> Prop :=
| reachable_new : reachable this empty_world
| reachable_trackEvent w now strategyNow category id details :
    reachable this w ->
    reachable this (world_after (trackEvent this now strategyNow category id details w))
| reachable_processDeferredEvents w now :
    reachable this w ->
    reachable this (world_after (processDeferredEvents this now w))
| reachable_updateConfig w category id newConfig :
    reachable this w ->
    reachable this (world_after (updateConfig this category id newConfig w))
| reachable_purge w now :
    reachable this w ->
    reachable this (purge now w).

(** What the strategies keep true of a record: it has counted at least
    one occurrence, it is deferred exactly when it has a
    [scheduledSendAt], and its expiry is the expiry window after its last
    counted occurrence. *)
Definition record_consistent (opts : TrackerOptions) (r : EventRecord.t) : Prop :=
  1 <= EventRecord.count r
  /\ (EventRecord.deferred r = true <-> EventRecord.scheduledSendAt r <> None)
  /\ EventRecord.expiresAt r = EventRecord.lastEventTime r + expireTime opts.

Definition store_consistent (opts : TrackerOptions)
  (events : gmap string EventRecord.t) : Prop :=
  forall k r, events !! k = Some r ->
    EventRecord.key r = k /\ record_consistent opts r.

(** The notification [processDeferredEvents] emits for a record. *)
Definition processed_event (r : EventRecord.t) : Emission :=
  {| event := "processed"; payload := RecordPayload r |}.

(** A token bucket that is never refilled, its record out of tokens. *)
Definition no_refill_record : EventRecord.t :=
  EventRecord.mk
    (generateCompositeKey "database_errors" "user-service")
    "database_errors" "user-service" quickstart_details
    (generateDetailsHash quickstart_details)
    1 0 DEFAULT_EXPIRE_TIME_MS false None
    (bucket_snapshot 1%Q 0%Q (options one_token_tracker))
    (Some {| tokens := 0%Q; lastRefill := 0 |}).

(** A record the token bucket created at time [0], one token left of
    two. *)
Definition fresh_bucket_record : EventRecord.t :=
  EventRecord.mk
    (generateCompositeKey "database_errors" "user-service")
    "database_errors" "user-service" quickstart_details
    (generateDetailsHash quickstart_details)
    1 0 DEFAULT_EXPIRE_TIME_MS false None
    (bucket_snapshot 2%Q 1%Q (options one_token_tracker))
    (Some {| tokens := 1%Q; lastRefill := 0 |}).

(** A handler that fails. *)
Definition failing_handler (batch : list EventRecord.t) : M unit :=
  fun w => Throw "handler failed" w.

Definition abstract_tracker : EventTracker :=
  {| options := options (newEventTracker None None None None None);
     strategy := BaseStrategy |}.

(** * Properties *)

(** ** The digest and the serializer on known values *)

Example sha256_empty :
  Sha256.sha256hex "" = "e3b0c44298fc1c149afbf4c8996fb92427ae41e4649b934ca495991b7852b855"%string.
Proof. vm_compute. reflexivity. Qed.

Example sha256_abc :
  Sha256.sha256hex "abc" = "ba7816bf8f01cfea414140de5dae2223b00361a396177a9cb410ff61f20015ad"%string.
Proof. vm_compute. reflexivity. Qed.

Example sha256_two_blocks :
  Sha256.sha256hex "abcdbcdecdefdefgefghfghighijhijkijkljklmklmnlmnomnopnopq"
  = "248d6a61d20638b8e5c026930c3e6039a33ce45964ff2167f6ecedd419db06c1"%string.
Proof. vm_compute. reflexivity. Qed.

Example stringify_sorted_keys :
  Json.stringify quickstart_details (Json.sort (Json.keys quickstart_details))
  = Some ("{" +:+ Json.dquote +:+ "code" +:+ Json.dquote +:+ ":"
           +:+ Json.dquote +:+ "E_CONN" +:+ Json.dquote +:+ ","
           +:+ Json.dquote +:+ "host" +:+ Json.dquote +:+ ":"
           +:+ Json.dquote +:+ "db-1" +:+ Json.dquote +:+ "}")%string.
Proof. reflexivity. Qed.

Example stringify_filters_nested_keys :
  Json.stringify
    (Json.Obj [("b", Json.Num 2);
               ("a", Json.Obj [("x", Json.Num 1); ("b", Json.Arr [Json.Null; Json.Undefined])])])
    ["a"; "b"]
  = Some ("{" +:+ Json.dquote +:+ "a" +:+ Json.dquote +:+ ":{"
           +:+ Json.dquote +:+ "b" +:+ Json.dquote +:+ ":[null,null]},"
           +:+ Json.dquote +:+ "b" +:+ Json.dquote +:+ ":2}")%string.
Proof. reflexivity. Qed.

Example sort_by_code_unit :
  Json.sort ["b"; "a"; "10"; "2"; "B"; "aa"]%string = ["10"; "2"; "B"; "a"; "aa"; "b"]%string.
Proof. reflexivity. Qed.

Example quickstart_fingerprint :
  generateDetailsHash quickstart_details
  = "49869329ecfb79e8722069d3b8ad857726fa65b2e53deaaf127bc3aac7af7b27"%string.
Proof. vm_compute. reflexivity. Qed.

Example counter_outcomes_limit_two :
  counter_outcomes 2 5 = [Immediate; Immediate; Deferred; Ignored; Ignored].
Proof. reflexivity. Qed.

Example bucket_trace_two_tokens :
  bucket_trace 2%Q 4 = [Immediate; Immediate; Deferred; Deferred].
Proof. reflexivity. Qed.

(** ** [trackEvent] by cases *)

#[local] Arguments Sha256.sha256hex : simpl never.
#[local] Arguments generateCompositeKey : simpl never.
#[local] Arguments generateDetailsHash : simpl never.
#[local] Arguments SimpleCounterStrategy_track : simpl never.
#[local] Arguments TokenBucketStrategy_track : simpl never.

Section TrackEventCases.
Variable this : EventTracker.
Variables now strategyNow : Z.
Variables category id : string.
Variable details : Json.value.
Variable w : World.

Let k := generateCompositeKey category id.
Let h := generateDetailsHash details.
Let ev := event_data category id details.

Lemma current_flags r :
  current now h r ->
  (now >? EventRecord.expiresAt r) || negb (String.eqb (EventRecord.detailsHash r) h) = false.
Proof.
  intros [Hle Hh]. rewrite Hh, String.eqb_refl.
  destruct (Z.gtb_spec now (EventRecord.expiresAt r)); [lia | reflexivity].
Qed.

Lemma superseded_flags r :
  superseded now h r ->
  (now >? EventRecord.expiresAt r) || negb (String.eqb (EventRecord.detailsHash r) h) = true.
Proof.
  intros [Hlt | Hne].
  - destruct (Z.gtb_spec now (EventRecord.expiresAt r)); [reflexivity | lia].
  - apply orb_true_iff. right.
    destruct (String.eqb_spec (EventRecord.detailsHash r) h); [contradiction | reflexivity].
Qed.

Lemma guard_open_flag :
  ~ key_limit_reached (options this) (events w) ->
  (0 <? maxKeys (options this)) && (maxKeys (options this) <=? InMemoryAdapter.size (events w)) = false.
Proof.
  intros Hn. unfold key_limit_reached in Hn.
  destruct (Z.ltb_spec 0 (maxKeys (options this))); [| reflexivity].
  destruct (Z.leb_spec (maxKeys (options this)) (InMemoryAdapter.size (events w))); [| reflexivity].
  exfalso. apply Hn. split; assumption.
Qed.

Lemma persisted_eq record :
  (let* tracked := settle (track (strategy this) (options this) strategyNow record
                             (EventData.mk k category id details h)) in
   storage_set k (snd tracked) ;;
   emit "tracked" (RecordPayload (snd tracked)) ;;
   emit (outcome_name (fst tracked)) (RecordPayload (snd tracked)) ;;
   ret {| type := fst tracked; reason := None; data := Some (snd tracked) |}) w
  = persisted k (track (strategy this) (options this) strategyNow record ev) w.
Proof.
  unfold bind, settle, persisted, ev, event_data. fold k. fold h.
  destruct (track (strategy this) (options this) strategyNow record
              (EventData.mk k category id details h)) as [[o r'] | e]; [| reflexivity].
  simpl. unfold ret, InMemoryAdapter.set. rewrite <- app_assoc. reflexivity.
Qed.

Lemma trackEvent_current r :
  events w !! k = Some r ->
  current now h r ->
  trackEvent this now strategyNow category id details w
  = persisted k (track (strategy this) (options this) strategyNow (Some r) ev) w.
Proof.
  intros Hk Hc. unfold trackEvent, bind, storage_get, InMemoryAdapter.get.
  fold k. fold h. rewrite Hk. rewrite (current_flags r Hc). simpl.
  apply persisted_eq.
Qed.

Lemma trackEvent_new :
  match events w !! k with
  | Some r => superseded now h r
  | None => True
  end ->
  ~ key_limit_reached (options this) (events w) ->
  trackEvent this now strategyNow category id details w
  = persisted k (track (strategy this) (options this) strategyNow None ev) w.
Proof.
  intros Hk Hg. unfold trackEvent, bind, storage_get, InMemoryAdapter.get.
  fold k. fold h.
  assert ((if match events w !! k with
              | Some r => now >? EventRecord.expiresAt r
              | None => false
              end
              || match events w !! k with
                 | Some r => negb (String.eqb (EventRecord.detailsHash r) h)
                 | None => false
                 end
           then None else events w !! k) = None) as ->.
  { destruct (events w !! k) as [r|]; [| reflexivity].
    rewrite (superseded_flags r Hk). reflexivity. }
  simpl. unfold storage_size.
  pose proof (guard_open_flag Hg) as Hflag.
  destruct (0 <? maxKeys (options this)); simpl in *.
  - rewrite Hflag. apply persisted_eq.
  - apply persisted_eq.
Qed.

Lemma trackEvent_key_limit :
  match events w !! k with
  | Some r => superseded now h r
  | None => True
  end ->
  key_limit_reached (options this) (events w) ->
  trackEvent this now strategyNow category id details w
  = Return {| type := Ignored; reason := Some "key_limit_reached"; data := None |}
           {| events := events w;
              emitted := emitted w
                ++ [ {| event := "ignored";
                        payload := IgnoredInfo "key_limit_reached" category id details |} ] |}.
Proof.
  intros Hk [Hpos Hfull]. unfold trackEvent, bind, storage_get, InMemoryAdapter.get.
  fold k. fold h.
  assert ((if match events w !! k with
              | Some r => now >? EventRecord.expiresAt r
              | None => false
              end
              || match events w !! k with
                 | Some r => negb (String.eqb (EventRecord.detailsHash r) h)
                 | None => false
                 end
           then None else events w !! k) = None) as ->.
  { destruct (events w !! k) as [r|]; [| reflexivity].
    rewrite (superseded_flags r Hk). reflexivity. }
  simpl. unfold storage_size.
  destruct (Z.ltb_spec 0 (maxKeys (options this))); [| lia]. simpl.
  destruct (Z.leb_spec (maxKeys (options this)) (InMemoryAdapter.size (events w))); [| lia].
  reflexivity.
Qed.
End TrackEventCases.

(** ** The storage adapter and the drain *)

Lemma for_each_drain (l : list EventRecord.t) (w : World) :
  for_each l (fun event =>
      storage_delete (EventRecord.key event) ;;
      emit "processed" (RecordPayload event)) w
  = Return tt
      {| events := foldl (fun m r => InMemoryAdapter.delete (EventRecord.key r) m) (events w) l;
         emitted := emitted w
                    ++ map (fun r => {| event := "processed"; payload := RecordPayload r |}) l |}.
Proof.
  revert w. induction l as [| r l IH]; intros w.
  - simpl. unfold ret. rewrite app_nil_r. destruct w; reflexivity.
  - simpl. unfold bind at 1. unfold bind at 1. simpl.
    rewrite IH. simpl. rewrite <- app_assoc. reflexivity.
Qed.

Lemma lookup_drained (l : list EventRecord.t) (m : gmap string EventRecord.t) (k : string) :
  foldl (fun m r => InMemoryAdapter.delete (EventRecord.key r) m) m l !! k
  = if decide (k ∈ map EventRecord.key l) then None else m !! k.
Proof.
  revert m. induction l as [| r l IH]; intros m; simpl.
  - reflexivity.
  - rewrite IH. unfold InMemoryAdapter.delete.
    destruct (decide (k = EventRecord.key r)) as [-> | Hne].
    + rewrite lookup_delete_eq.
      rewrite (decide_True (P := _ ∈ _ :: _)) by apply list_elem_of_here.
      destruct (decide _); reflexivity.
    + rewrite lookup_delete_ne by congruence.
      destruct (decide (k ∈ map EventRecord.key l)) as [Hin | Hnin].
      * rewrite decide_True by (apply list_elem_of_further; exact Hin). reflexivity.
      * rewrite decide_False; [reflexivity |].
        intros Hin. apply elem_of_cons in Hin as [? | ?]; contradiction.
Qed.

Lemma elem_of_findDueDeferred (ts : Z) (m : gmap string EventRecord.t) (r : EventRecord.t) :
  r ∈ InMemoryAdapter.findDueDeferred ts m
  <-> (exists k, m !! k = Some r) /\ InMemoryAdapter.is_due ts r = true.
Proof.
  unfold InMemoryAdapter.findDueDeferred.
  rewrite list_elem_of_In, filter_In, <- list_elem_of_In.
  rewrite list_elem_of_fmap. split.
  - intros [[[k r'] [-> Hin]] Hdue]. split; [| exact Hdue].
    exists k. apply elem_of_map_to_list. exact Hin.
  - intros [[k Hk] Hdue]. split; [| exact Hdue].
    exists (k, r). split; [reflexivity |]. apply elem_of_map_to_list. exact Hk.
Qed.

Lemma processDeferredEvents_eq (this : EventTracker) (now : Z) (w : World) :
  processDeferredEvents this now w
  = let due := InMemoryAdapter.findDueDeferred now (events w) in
    Return due
      {| events := foldl (fun m r => InMemoryAdapter.delete (EventRecord.key r) m) (events w) due;
         emitted := emitted w
                    ++ map (fun r => {| event := "processed"; payload := RecordPayload r |}) due |}.
Proof.
  unfold processDeferredEvents, bind at 1, storage_findDueDeferred.
  unfold bind at 1. rewrite for_each_drain. reflexivity.
Qed.

Lemma filter_nil_iff {A} (f : A -> bool) (l : list A) :
  List.filter f l = [] <-> forall x, x ∈ l -> f x = false.
Proof.
  induction l as [| a l IH]; simpl.
  - split; [intros _ x Hx; inversion Hx | reflexivity].
  - destruct (f a) eqn:Ha.
    + split; [discriminate |]. intros H. specialize (H a (list_elem_of_here _ _)). congruence.
    + rewrite IH. split.
      * intros H x Hx. apply elem_of_cons in Hx as [-> | Hx]; auto.
      * intros H x Hx. apply H. apply list_elem_of_further. exact Hx.
Qed.

(** C8.  On a store in which every record sits under its own key (every
    store the tracker builds has this property), [processDeferredEvents] returns
    the due deferred records and deletes each of them; a second call at a
    time [now2] at which no further record has become due finds no due
    record, returns the empty batch and changes nothing. *)
Theorem processDeferredEvents_twice (this : EventTracker) (now now2 : Z) (w : World) :
  stored_under_own_key (events w) ->
  (forall k r, events w !! k = Some r ->
     InMemoryAdapter.is_due now2 r = true -> InMemoryAdapter.is_due now r = true) ->
  exists batch w',
    processDeferredEvents this now w = Return batch w'
    /\ batch = InMemoryAdapter.findDueDeferred now (events w)
    /\ (forall r, r ∈ batch -> events w' !! EventRecord.key r = None)
    /\ InMemoryAdapter.findDueDeferred now2 (events w') = []
    /\ processDeferredEvents this now2 w' = Return [] w'.
Proof.
  intros Hwf Hdue. rewrite processDeferredEvents_eq. cbv zeta.
  set (due := InMemoryAdapter.findDueDeferred now (events w)).
  eexists _, _. split; [reflexivity |]. split; [reflexivity |]. simpl.
  assert (Hgone : forall r, r ∈ due ->
            foldl (fun m r => InMemoryAdapter.delete (EventRecord.key r) m) (events w) due
              !! EventRecord.key r = None).
  { intros r Hr. rewrite lookup_drained. rewrite decide_True; [reflexivity |].
    apply list_elem_of_fmap. exists r. split; [reflexivity | exact Hr]. }
  assert (Hnone : InMemoryAdapter.findDueDeferred now2
            (foldl (fun m r => InMemoryAdapter.delete (EventRecord.key r) m) (events w) due) = []).
  { apply filter_nil_iff. intros r Hr.
    apply list_elem_of_fmap in Hr as [[k r'] [-> Hin]]. simpl.
    apply elem_of_map_to_list in Hin. rewrite lookup_drained in Hin.
    destruct (decide (k ∈ map EventRecord.key due)) as [Hk | Hk]; [discriminate |].
    destruct (InMemoryAdapter.is_due now2 r') eqn:Hd; [| reflexivity].
    exfalso. apply Hk. apply list_elem_of_fmap. exists r'. split.
    - symmetry. apply Hwf. exact Hin.
    - apply elem_of_findDueDeferred. split; [exists k; exact Hin |]. eapply Hdue; eassumption. }
  split; [exact Hgone |]. split; [exact Hnone |].
  rewrite processDeferredEvents_eq. cbv zeta. simpl. rewrite Hnone. simpl.
  rewrite app_nil_r. reflexivity.
Qed.

(** ** The key-limit guard, configuration updates, and resets *)

(** C5.  With [maxKeys > 0] and [size() >= maxKeys]: a call whose key has
    no record, or a record that is expired or has another fingerprint,
    resolves to [{ type: 'ignored', reason: 'key_limit_reached' }] whatever
    the strategy is, emits the one [ignored] notification and leaves the
    store as it was; a call whose key has a current record goes to the
    strategy with that record and persists the answer, as it does without
    the guard. *)
Theorem key_limit_guard (this : EventTracker) (now strategyNow : Z)
  (category id : string) (details : Json.value) (w : World) :
  key_limit_reached (options this) (events w) ->
  let k := generateCompositeKey category id in
  let h := generateDetailsHash details in
  (match events w !! k with
   | Some r => superseded now h r
   | None => True
   end ->
   trackEvent this now strategyNow category id details w
   = Return {| type := Ignored; reason := Some "key_limit_reached"; data := None |}
            {| events := events w;
               emitted := emitted w
                 ++ [ {| event := "ignored";
                         payload := IgnoredInfo "key_limit_reached" category id details |} ] |})
  /\ (forall r, events w !! k = Some r -> current now h r ->
      trackEvent this now strategyNow category id details w
      = persisted k
          (track (strategy this) (options this) strategyNow (Some r)
             (event_data category id details)) w).
Proof.
  intros Hfull k h. split.
  - intros Hk. apply trackEvent_key_limit; assumption.
  - intros r Hk Hc. apply trackEvent_current; assumption.
Qed.

Lemma lookup_spread (config newConfig : gmap string Q) (f : string) :
  spread config newConfig !! f
  = match newConfig !! f with
    | Some v => Some v
    | None => config !! f
    end.
Proof.
  unfold spread. rewrite lookup_union.
  destruct (newConfig !! f), (config !! f); reflexivity.
Qed.

(** C9.  [updateConfig] returns [false] and leaves store and
    notifications as they were when the composite key has no record.
    When it has one, the record is stored again with [config] replaced by
    the merge, [config_updated] is emitted with that record and [true] is
    returned; a field of the merge reads as in the patch when the patch
    has it and as in the prior [config] otherwise, and every other field
    of the record is unchanged. *)
Theorem updateConfig_merges (this : EventTracker) (category id : string)
  (newConfig : gmap string Q) (w : World) :
  let k := generateCompositeKey category id in
  updateConfig this category id newConfig w
  = match events w !! k with
    | None => Return false w
    | Some record =>
        let merged :=
          EventRecord.set_config (spread (EventRecord.config record) newConfig) record in
        Return true
          {| events := <[k := merged]> (events w);
             emitted := emitted w
               ++ [ {| event := "config_updated"; payload := RecordPayload merged |} ] |}
    end
  /\ (forall record f,
        EventRecord.config
          (EventRecord.set_config (spread (EventRecord.config record) newConfig) record) !! f
        = match newConfig !! f with
          | Some v => Some v
          | None => EventRecord.config record !! f
          end)
  /\ (forall record c,
        let merged := EventRecord.set_config c record in
        EventRecord.key merged = EventRecord.key record
        /\ EventRecord.category merged = EventRecord.category record
        /\ EventRecord.id merged = EventRecord.id record
        /\ EventRecord.details merged = EventRecord.details record
        /\ EventRecord.detailsHash merged = EventRecord.detailsHash record
        /\ EventRecord.count merged = EventRecord.count record
        /\ EventRecord.lastEventTime merged = EventRecord.lastEventTime record
        /\ EventRecord.expiresAt merged = EventRecord.expiresAt record
        /\ EventRecord.deferred merged = EventRecord.deferred record
        /\ EventRecord.scheduledSendAt merged = EventRecord.scheduledSendAt record
        /\ EventRecord.strategyData merged = EventRecord.strategyData record).
Proof.
  intros k. split; [| split].
  - unfold updateConfig, bind at 1, storage_get, InMemoryAdapter.get. fold k.
    destruct (events w !! k) as [record |]; [| reflexivity].
    reflexivity.
  - intros record f. simpl. apply lookup_spread.
  - intros record c. simpl. repeat split.
Qed.

Lemma counter_snapshot_limit (opts : TrackerOptions) :
  counter_snapshot opts !! "limit" = Some (inject_Z (limit opts)).
Proof. reflexivity. Qed.
Lemma counter_snapshot_deferInterval (opts : TrackerOptions) :
  counter_snapshot opts !! "deferInterval" = Some (inject_Z (deferInterval opts)).
Proof. reflexivity. Qed.
Lemma bucket_snapshot_refillRate (b rr : Q) (opts : TrackerOptions) :
  bucket_snapshot b rr opts !! "refillRate" = Some rr.
Proof. reflexivity. Qed.
Lemma bucket_snapshot_bucketSize (b rr : Q) (opts : TrackerOptions) :
  bucket_snapshot b rr opts !! "bucketSize" = Some b.
Proof. reflexivity. Qed.

Lemma exceeds_inject (count L : Z) :
  exceeds count (Some (inject_Z L)) = (L <? count).
Proof.
  unfold exceeds, Qltb, Qle_bool. simpl. rewrite !Z.mul_1_r.
  symmetry. apply Z.ltb_antisym.
Qed.

Lemma counter_creates (opts : TrackerOptions) (now : Z) (ev : EventData.t) :
  SimpleCounterStrategy_track opts now None ev
  = let fresh :=
      EventRecord.mk (EventData.compositeKey ev) (EventData.category ev) (EventData.id ev)
        (EventData.details ev) (EventData.detailsHash ev) 1 now (now + expireTime opts)
        false None (counter_snapshot opts) None in
    if limit opts <? 1 then
      Ok (Deferred,
          EventRecord.set_scheduledSendAt
            (Some (Finite (inject_Z now + inject_Z (deferInterval opts))%Q))
            (EventRecord.set_deferred true fresh))
    else Ok (Immediate, fresh).
Proof.
  unfold SimpleCounterStrategy_track. cbv zeta. cbn [EventRecord.deferred EventRecord.count EventRecord.config].
  fold (counter_snapshot opts).
  rewrite counter_snapshot_limit, counter_snapshot_deferInterval, exceeds_inject.
  reflexivity.
Qed.

Lemma key_limit_never_seen (opts : TrackerOptions) (key : string) (w : World) :
  ~ key_limit_reached opts (events w) ->
  ~ key_limit_reached opts (events (never_seen key w)).
Proof.
  intros Hopen [Hpos Hfull]. apply Hopen. split; [exact Hpos |].
  unfold InMemoryAdapter.size in *. simpl in Hfull.
  rewrite map_size_delete in Hfull.
  destruct (events w !! key); simpl in Hfull; lia.
Qed.

Lemma shipped_creates (s : Strategy) (opts : TrackerOptions) (now : Z) (ev : EventData.t) :
  shipped s ->
  exists o r', track s opts now None ev = Ok (o, r')
    /\ EventRecord.key r' = EventData.compositeKey ev
    /\ EventRecord.detailsHash r' = EventData.detailsHash ev
    /\ EventRecord.details r' = EventData.details ev
    /\ EventRecord.count r' = 1
    /\ EventRecord.lastEventTime r' = now
    /\ EventRecord.expiresAt r' = now + expireTime opts.
Proof.
  intros [| b rr]; simpl.
  - rewrite counter_creates. cbv zeta.
    destruct (limit opts <? 1); eexists _, _; (split; [reflexivity |]); simpl; repeat split.
  - eexists _, _. split; [reflexivity |]. simpl. repeat split.
Qed.

(** C2, as amended.  For a tracker with one of the shipped strategies, a
    stored record that the call finds expired ([now > expiresAt]) or with
    another fingerprint, and the key-limit guard not firing: [trackEvent]
    hands no record to the strategy, and resolves to the same result and
    the same store as the same call on the store from which the key was
    deleted.  The persisted record has count 1, the clock reading of the
    call, the details and fingerprint of the call, and the snapshot of the
    tracker's current configuration; nothing of the old record is read.
    It has [deferred = false] under the token bucket, and under the
    counter strategy when the tracker's limit is at least 1; with a limit
    below 1 the counter strategy defers the first occurrence itself. *)
Theorem superseded_record_is_replaced (this : EventTracker) (now strategyNow : Z)
  (category id : string) (details : Json.value) (w : World) (r : EventRecord.t) :
  let k := generateCompositeKey category id in
  let h := generateDetailsHash details in
  let ev := event_data category id details in
  shipped (strategy this) ->
  events w !! k = Some r ->
  superseded now h r ->
  ~ key_limit_reached (options this) (events w) ->
  trackEvent this now strategyNow category id details w
  = persisted k (track (strategy this) (options this) strategyNow None ev) w
  /\ (exists res w',
        trackEvent this now strategyNow category id details w = Return res w'
        /\ trackEvent this now strategyNow category id details (never_seen k w) = Return res w'
        /\ exists r',
             data res = Some r' /\ events w' !! k = Some r'
             /\ EventRecord.count r' = 1
             /\ EventRecord.lastEventTime r' = strategyNow
             /\ EventRecord.expiresAt r' = strategyNow + expireTime (options this)
             /\ EventRecord.details r' = details
             /\ EventRecord.detailsHash r' = h)
  /\ (strategy this = SimpleCounterStrategy ->
      exists o r',
        track (strategy this) (options this) strategyNow None ev = Ok (o, r')
        /\ EventRecord.config r' = counter_snapshot (options this)
        /\ EventRecord.strategyData r' = None
        /\ (1 <= limit (options this) ->
            o = Immediate /\ EventRecord.deferred r' = false
            /\ EventRecord.scheduledSendAt r' = None)
        /\ (limit (options this) < 1 ->
            o = Deferred /\ EventRecord.deferred r' = true))
  /\ (forall bucketSize refillRate,
      strategy this = TokenBucketStrategy bucketSize refillRate ->
      exists r',
        track (strategy this) (options this) strategyNow None ev = Ok (Immediate, r')
        /\ EventRecord.config r'
           = bucket_snapshot (default DEFAULT_BUCKET_SIZE bucketSize)
               (default DEFAULT_REFILL_RATE refillRate) (options this)
        /\ EventRecord.strategyData r'
           = Some {| tokens := (default DEFAULT_BUCKET_SIZE bucketSize - 1)%Q;
                     lastRefill := strategyNow |}
        /\ EventRecord.deferred r' = false
        /\ EventRecord.scheduledSendAt r' = None).
Proof.
  intros k h ev Hs Hk Hsup Hopen.
  assert (Hw : trackEvent this now strategyNow category id details w
               = persisted k (track (strategy this) (options this) strategyNow None ev) w).
  { apply trackEvent_new; [| exact Hopen]. fold k. rewrite Hk. exact Hsup. }
  assert (Hn : trackEvent this now strategyNow category id details (never_seen k w)
               = persisted k (track (strategy this) (options this) strategyNow None ev)
                   (never_seen k w)).
  { apply trackEvent_new; [| apply key_limit_never_seen; exact Hopen].
    fold k. simpl. rewrite lookup_delete_eq. exact I. }
  split; [exact Hw |]. split; [| split].
  - destruct (shipped_creates (strategy this) (options this) strategyNow ev Hs)
      as (o & r' & Ht & _ & Hh & Hd & Hc & Hl & He).
    rewrite Hw, Hn, Ht. simpl. eexists _, _. split; [reflexivity |]. split.
    + rewrite insert_delete_eq. reflexivity.
    + exists r'. simpl. rewrite lookup_insert_eq. repeat split; assumption.
  - intros ->. simpl. rewrite counter_creates. cbv zeta.
    destruct (Z.ltb_spec (limit (options this)) 1).
    + eexists _, _. split; [reflexivity |]. simpl.
      repeat split; try reflexivity; lia.
    + eexists _, _. split; [reflexivity |]. simpl.
      repeat split; try reflexivity; lia.
  - intros b rr ->. simpl. eexists. split; [reflexivity |]. simpl. repeat split.
Qed.

(** ** The counter strategy over a run of occurrences *)

Lemma counter_step (opts : TrackerOptions) (now : Z) (r : EventRecord.t) (ev : EventData.t) :
  SimpleCounterStrategy_track opts now (Some r) ev
  = let counted :=
      EventRecord.set_expiresAt (now + expireTime opts)
        (EventRecord.set_lastEventTime now
           (EventRecord.set_count (EventRecord.count r + 1) r)) in
    if EventRecord.deferred r then Ok (Ignored, counted)
    else if exceeds (EventRecord.count r + 1) (EventRecord.config r !! "limit") then
      Ok (Deferred,
          EventRecord.set_scheduledSendAt
            (Some (time_plus now (EventRecord.config r !! "deferInterval")))
            (EventRecord.set_deferred true counted))
    else Ok (Immediate, counted).
Proof. reflexivity. Qed.

Lemma trackEvents_cons (c : Occurrence) (rest : list Occurrence) (category id : string)
  (details : Json.value) (w w1 w2 : World) (r : TrackResult) (rs : list TrackResult) :
  trackEvent (occ_tracker c) (occ_now c) (occ_strategyNow c) category id details w
  = Return r w1 ->
  trackEvents rest category id details w1 = Return rs w2 ->
  trackEvents (c :: rest) category id details w = Return (r :: rs) w2.
Proof.
  intros H1 H2. simpl. unfold bind at 1. rewrite H1.
  unfold bind at 1. rewrite H2. reflexivity.
Qed.

Lemma counts_from_S (count : Z) (n : nat) :
  counts_from count (S n) = Some (count + 1) :: counts_from (count + 1) n.
Proof.
  unfold counts_from. simpl. f_equal.
  rewrite <- seq_shift, map_map. apply map_ext. intros i. f_equal. lia.
Qed.

Section CounterRun.
Variables category id : string.
Variable details : Json.value.

Let k := generateCompositeKey category id.
Let h := generateDetailsHash details.

Lemma counter_run (calls : list Occurrence) :
  Forall (fun c => strategy (occ_tracker c) = SimpleCounterStrategy) calls ->
  forall (w : World) (r : EventRecord.t),
  events w !! k = Some r ->
  EventRecord.detailsHash r = h ->
  no_expiry (EventRecord.expiresAt r) calls ->
  exists rs w' r',
    trackEvents calls category id details w = Return rs w'
    /\ result_outcomes rs
       = counter_trace (EventRecord.config r !! "limit") (EventRecord.deferred r)
           (EventRecord.count r) (length calls)
    /\ result_counts rs = counts_from (EventRecord.count r) (length calls)
    /\ events w' !! k = Some r'
    /\ EventRecord.count r' = EventRecord.count r + Z.of_nat (length calls)
    /\ EventRecord.config r' = EventRecord.config r
    /\ EventRecord.detailsHash r' = h
    /\ (EventRecord.deferred r = true ->
        EventRecord.deferred r' = true
        /\ EventRecord.scheduledSendAt r' = EventRecord.scheduledSendAt r).
Proof.
  induction 1 as [| c rest Hc _ IH]; intros w r Hk Hh Hne.
  - exists [], w, r. simpl. repeat split; try assumption. lia.
  - destruct Hne as [Hnow Hrest].
    pose proof (trackEvent_current (occ_tracker c) (occ_now c) (occ_strategyNow c)
                  category id details w r Hk (conj Hnow Hh)) as Hstep.
    rewrite Hc in Hstep. simpl in Hstep. rewrite counter_step in Hstep.
    cbv zeta in Hstep.
    set (counted := EventRecord.set_expiresAt
                      (occ_strategyNow c + expireTime (options (occ_tracker c)))
                      (EventRecord.set_lastEventTime (occ_strategyNow c)
                         (EventRecord.set_count (EventRecord.count r + 1) r))) in *.
    cbn [length counter_trace]. rewrite counts_from_S.
    destruct (EventRecord.deferred r) eqn:Hd.
    + simpl in Hstep.
      match type of Hstep with _ = Return ?res ?w1 =>
        destruct (IH w1 counted) as (rs & w' & r' & Hrun & Hout & Hcnt & Hk' & Hc' & Hcfg & Hh' & Hdef)
      end; [apply lookup_insert_eq | exact Hh | exact Hrest |].
      eexists _, w', r'. split; [eapply trackEvents_cons; eassumption |].
      simpl in *. rewrite Hd in *. rewrite Hout, Hcnt.
      repeat split; try assumption; try reflexivity; try lia; apply Hdef; reflexivity.
    + destruct (exceeds (EventRecord.count r + 1) (EventRecord.config r !! "limit")) eqn:Hex;
        simpl in Hstep.
      * match type of Hstep with _ = Return ?res ?w1 =>
          destruct (IH w1 (EventRecord.set_scheduledSendAt
                             (Some (time_plus (occ_strategyNow c)
                                      (EventRecord.config r !! "deferInterval")))
                             (EventRecord.set_deferred true counted)))
            as (rs & w' & r' & Hrun & Hout & Hcnt & Hk' & Hc' & Hcfg & Hh' & Hdef)
        end; [apply lookup_insert_eq | exact Hh | exact Hrest |].
        eexists _, w', r'. split; [eapply trackEvents_cons; eassumption |].
        simpl in *. rewrite Hout, Hcnt.
        repeat split; try assumption; try reflexivity; try lia; discriminate.
      * match type of Hstep with _ = Return ?res ?w1 =>
          destruct (IH w1 counted)
            as (rs & w' & r' & Hrun & Hout & Hcnt & Hk' & Hc' & Hcfg & Hh' & Hdef)
        end; [apply lookup_insert_eq | exact Hh | exact Hrest |].
        eexists _, w', r'. split; [eapply trackEvents_cons; eassumption |].
        simpl in *. rewrite Hd in *. rewrite Hout, Hcnt.
        repeat split; try assumption; try reflexivity; try lia; discriminate.
Qed.
End CounterRun.

Lemma counter_trace_deferred (limit : option Q) (count : Z) (n : nat) :
  counter_trace limit true count n = replicate n Ignored.
Proof.
  revert count. induction n as [| n IH]; intros count; simpl; [reflexivity |].
  rewrite IH. reflexivity.
Qed.

Lemma counter_trace_below (L count : Z) (n m : nat) :
  0 <= count <= L ->
  (n <= m)%nat ->
  counter_trace (Some (inject_Z L)) false count n
  = take n (replicate (Z.to_nat (L - count)) Immediate ++ Deferred :: replicate m Ignored).
Proof.
  revert count m. induction n as [| n IH]; intros count m Hc Hm; [reflexivity |].
  cbn [counter_trace]. rewrite exceeds_inject.
  destruct (Z.ltb_spec L (count + 1)) as [Hlt | Hge].
  - replace (L - count) with 0 by lia. simpl.
    rewrite counter_trace_deferred. f_equal.
    rewrite take_replicate. f_equal. lia.
  - replace (Z.to_nat (L - count)) with (S (Z.to_nat (L - (count + 1)))) by lia.
    simpl. f_equal. apply IH; lia.
Qed.

Lemma counter_trace_outcomes (L : Z) (n : nat) :
  counter_trace (Some (inject_Z L)) false 0 n = counter_outcomes L n.
Proof.
  unfold counter_outcomes. destruct (Z_le_gt_dec 0 L) as [HL | HL].
  - rewrite (counter_trace_below L 0 n n) by lia.
    rewrite Z.sub_0_r. reflexivity.
  - replace (Z.to_nat L) with 0%nat by lia.
    destruct n as [| n]; [reflexivity |].
    cbn [counter_trace]. rewrite exceeds_inject.
    destruct (Z.ltb_spec L (0 + 1)); [| lia].
    rewrite counter_trace_deferred.
    change (take (S n) (replicate 0 Immediate ++ Deferred :: replicate (S n) Ignored))
      with (Deferred :: take n (replicate (S n) Ignored)).
    f_equal. rewrite take_replicate. f_equal. lia.
Qed.

(** C1, as amended.  Under the counter strategy, take any run of
    [trackEvent] calls with the same category, identifier and details on
    a store in which the key is absent, such that the key-limit guard does
    not refuse the first call and no later call reads the clock after the
    record's [expiresAt].  With [L] the tracker's limit at the first call
    (the value frozen into the record's [config.limit]; the trackers of
    the later calls may be configured differently), the calls resolve to
    [immediate] for the first [L], [deferred] for call [L + 1] and
    [ignored] for every call after it, and call [i] returns count [i].
    A negative limit behaves as the limit 0. *)
Theorem counter_limit_then_deferred_then_ignored (calls : list Occurrence)
  (category id : string) (details : Json.value) (w : World) (L : Z) :
  Forall (fun c => strategy (occ_tracker c) = SimpleCounterStrategy) calls ->
  events w !! generateCompositeKey category id = None ->
  (forall c rest, calls = c :: rest ->
     limit (options (occ_tracker c)) = L
     /\ ~ key_limit_reached (options (occ_tracker c)) (events w)) ->
  no_expiry_after_first calls ->
  exists rs w',
    trackEvents calls category id details w = Return rs w'
    /\ result_outcomes rs = counter_outcomes L (length calls)
    /\ result_counts rs = counts_from 0 (length calls).
Proof.
  intros Hall Hk Hfirst Hne.
  rewrite <- counter_trace_outcomes.
  destruct calls as [| c rest].
  - exists [], w. repeat split.
  - destruct (Hfirst c rest eq_refl) as [Hlim Hopen].
    apply Forall_cons in Hall as [Hc Hrest].
    pose proof (trackEvent_new (occ_tracker c) (occ_now c) (occ_strategyNow c)
                  category id details w) as Hstep.
    rewrite Hk in Hstep. specialize (Hstep I Hopen).
    rewrite Hc in Hstep. simpl in Hstep. rewrite counter_creates in Hstep.
    cbv zeta in Hstep. rewrite Hlim in Hstep.
    cbn [length counter_trace]. rewrite counts_from_S, exceeds_inject.
    change (0 + 1) with 1.
    destruct (L <? 1) eqn:HL1; simpl in Hstep.
    + match type of Hstep with _ = Return ?res ?w1 =>
        match w1 with {| events := <[_ := ?r1]> _ |} =>
          destruct (counter_run category id details rest Hrest w1 r1)
            as (rs & w' & r' & Hrun & Hout & Hcnt & _)
        end
      end; [apply lookup_insert_eq | reflexivity | exact Hne |].
      eexists _, w'. split; [eapply trackEvents_cons; eassumption |].
      simpl in *. rewrite Hout, Hcnt. rewrite !counter_trace_deferred. split; reflexivity.
    + match type of Hstep with _ = Return ?res ?w1 =>
        match w1 with {| events := <[_ := ?r1]> _ |} =>
          destruct (counter_run category id details rest Hrest w1 r1)
            as (rs & w' & r' & Hrun & Hout & Hcnt & _)
        end
      end; [apply lookup_insert_eq | reflexivity | exact Hne |].
      eexists _, w'. split; [eapply trackEvents_cons; eassumption |].
      simpl in *. rewrite Hout, Hcnt. rewrite counter_snapshot_limit, Hlim.
      split; reflexivity.
Qed.

(** C3, as amended.  Under the counter strategy, once the stored record
    has [deferred = true], every further occurrence with the same details
    that reads the clock before the record's expiry resolves to [ignored],
    never to [deferred]; the record stays deferred, its [scheduledSendAt]
    is left as it was and its count goes up by one per occurrence. *)
Theorem counter_ignores_while_deferred (calls : list Occurrence)
  (category id : string) (details : Json.value) (w : World) (r : EventRecord.t) :
  Forall (fun c => strategy (occ_tracker c) = SimpleCounterStrategy) calls ->
  events w !! generateCompositeKey category id = Some r ->
  EventRecord.detailsHash r = generateDetailsHash details ->
  EventRecord.deferred r = true ->
  no_expiry (EventRecord.expiresAt r) calls ->
  exists rs w' r',
    trackEvents calls category id details w = Return rs w'
    /\ result_outcomes rs = replicate (length calls) Ignored
    /\ events w' !! generateCompositeKey category id = Some r'
    /\ EventRecord.deferred r' = true
    /\ EventRecord.scheduledSendAt r' = EventRecord.scheduledSendAt r
    /\ EventRecord.count r' = EventRecord.count r + Z.of_nat (length calls).
Proof.
  intros Hall Hk Hh Hd Hne.
  destruct (counter_run category id details calls Hall w r Hk Hh Hne)
    as (rs & w' & r' & Hrun & Hout & _ & Hk' & Hc' & _ & _ & Hdef).
  exists rs, w', r'. rewrite Hd, counter_trace_deferred in Hout.
  destruct (Hdef Hd) as [Hd' Hs'].
  repeat split; assumption.
Qed.

(** ** The token bucket *)

Lemma bucket_step (b rr : Q) (opts : TrackerOptions) (now : Z) (r : EventRecord.t)
  (sd : StrategyData) (ev : EventData.t) :
  EventRecord.strategyData r = Some sd ->
  TokenBucketStrategy_track b rr opts now (Some r) ev
  = let currentTokens := fst (refill (EventRecord.config r) sd now) in
    let lastRefill' := snd (refill (EventRecord.config r) sd now) in
    if has_token currentTokens then
      Ok (Immediate,
          EventRecord.set_scheduledSendAt None
            (EventRecord.set_deferred false
               (EventRecord.set_expiresAt (now + expireTime opts)
                  (EventRecord.set_lastEventTime now
                     (EventRecord.set_count (EventRecord.count r + 1)
                        (EventRecord.set_strategyData
                           (Some {| tokens := match currentTokens with
                                              | Some c => (c - 1)%Q
                                              | None => tokens sd
                                              end;
                                    lastRefill := lastRefill' |}) r))))))
    else
      Ok (Deferred,
          EventRecord.set_scheduledSendAt
            (Some (retry_time now (EventRecord.config r !! "refillRate")))
            (EventRecord.set_deferred true
               (EventRecord.set_strategyData
                  (Some {| tokens := tokens sd; lastRefill := lastRefill' |}) r))).
Proof. intros Hsd. unfold TokenBucketStrategy_track. rewrite Hsd. reflexivity. Qed.

Lemma refill_no_time (config : gmap string Q) (sd : StrategyData) :
  refill config sd (lastRefill sd) = (Some (tokens sd), lastRefill sd).
Proof.
  unfold refill, tokensToAdd. rewrite Z.sub_diag.
  destruct (config !! "refillRate") as [rate |]; [| reflexivity].
  assert (Qfloor (inject_Z 0 / 1000 * rate) = 0) as ->; [| reflexivity].
  unfold Qfloor, Qmult, Qdiv, Qinv, inject_Z. simpl. reflexivity.
Qed.

Lemma refill_same_instant (config : gmap string Q) (sd : StrategyData) (now : Z) :
  lastRefill sd = now ->
  refill config sd now = (Some (tokens sd), now).
Proof. intros <-. apply refill_no_time. Qed.

Section BucketBurst.
Variable this : EventTracker.
Variables bucketSize refillRate : option Q.
Hypothesis Hstrategy : strategy this = TokenBucketStrategy bucketSize refillRate.
Hypothesis Hexpire : 0 <= expireTime (options this).
Variable now : Z.
Variables category id : string.
Variable details : Json.value.

Let k := generateCompositeKey category id.
Let h := generateDetailsHash details.

Lemma bucket_burst (n : nat) :
  forall (w : World) (r : EventRecord.t) (sd : StrategyData),
  events w !! k = Some r ->
  EventRecord.detailsHash r = h ->
  EventRecord.strategyData r = Some sd ->
  lastRefill sd = now ->
  now <= EventRecord.expiresAt r ->
  exists rs w',
    trackEvents (back_to_back this now n) category id details w = Return rs w'
    /\ result_outcomes rs = bucket_trace (tokens sd) n
    /\ result_schedules rs
       = map (bucket_schedule now (EventRecord.config r !! "refillRate"))
           (bucket_trace (tokens sd) n).
Proof.
  induction n as [| n IH]; intros w r sd Hk Hh Hsd Hlast Hlive.
  - exists [], w. repeat split.
  - pose proof (trackEvent_current this now now category id details w r Hk (conj Hlive Hh))
      as Hstep.
    rewrite Hstrategy in Hstep. simpl in Hstep.
    rewrite (bucket_step _ _ _ _ _ sd) in Hstep by exact Hsd.
    rewrite (refill_same_instant _ _ _ Hlast) in Hstep.
    cbv zeta in Hstep. cbn [fst snd has_token] in Hstep.
    cbn [bucket_trace].
    destruct (Qle_bool 1 (tokens sd)) eqn:Htok; simpl in Hstep.
    + match type of Hstep with _ = Return ?res ?w1 =>
        match w1 with {| events := <[_ := ?r1]> _ |} =>
          destruct (IH w1 r1 {| tokens := (tokens sd - 1)%Q; lastRefill := now |})
            as (rs & w' & Hrun & Hout & Hsch)
        end
      end; [apply lookup_insert_eq | exact Hh | reflexivity | reflexivity | simpl; lia |].
      eexists _, w'. split; [eapply trackEvents_cons; eassumption |].
      simpl in *. rewrite Hout, Hsch. split; reflexivity.
    + match type of Hstep with _ = Return ?res ?w1 =>
        match w1 with {| events := <[_ := ?r1]> _ |} =>
          destruct (IH w1 r1 {| tokens := tokens sd; lastRefill := now |})
            as (rs & w' & Hrun & Hout & Hsch)
        end
      end; [apply lookup_insert_eq | exact Hh | reflexivity | reflexivity | exact Hlive |].
      eexists _, w'. split; [eapply trackEvents_cons; eassumption |].
      simpl in *. rewrite Hout, Hsch. split; reflexivity.
Qed.

Lemma bucket_burst_from_absent (n : nat) (w : World) :
  events w !! k = None ->
  ~ key_limit_reached (options this) (events w) ->
  exists rs w',
    trackEvents (back_to_back this now (S n)) category id details w = Return rs w'
    /\ result_outcomes rs
       = Immediate :: bucket_trace (default DEFAULT_BUCKET_SIZE bucketSize - 1)%Q n
    /\ result_schedules rs
       = None :: map (bucket_schedule now (Some (default DEFAULT_REFILL_RATE refillRate)))
                   (bucket_trace (default DEFAULT_BUCKET_SIZE bucketSize - 1)%Q n).
Proof.
  intros Hk Hopen.
  pose proof (trackEvent_new this now now category id details w) as Hstep.
  fold k in Hstep. rewrite Hk in Hstep. specialize (Hstep I Hopen).
  rewrite Hstrategy in Hstep. simpl in Hstep.
  match type of Hstep with _ = Return ?res ?w1 =>
    match w1 with {| events := <[_ := ?r1]> _ |} =>
      destruct (bucket_burst n w1 r1
                  {| tokens := (default DEFAULT_BUCKET_SIZE bucketSize - 1)%Q;
                     lastRefill := now |})
        as (rs & w' & Hrun & Hout & Hsch)
    end
  end; [apply lookup_insert_eq | reflexivity | reflexivity | reflexivity | simpl; lia |].
  eexists _, w'. split; [eapply trackEvents_cons; eassumption |].
  simpl in *. rewrite Hout, Hsch. split; reflexivity.
Qed.
End BucketBurst.

Lemma retry_time_finite (rate : Q) (t : Z) :
  ~ (rate == 0)%Q ->
  exists q, retry_time t (Some rate) = Finite q
            /\ (q == inject_Z t + 1000 * (1 / rate))%Q.
Proof.
  intros Hrate. unfold retry_time.
  destruct (Qeq_bool rate 0) eqn:Hz.
  - apply Qeq_bool_iff in Hz. contradiction.
  - eexists. split; [reflexivity |]. field. exact Hrate.
Qed.

Lemma retry_time_monotone (rate : Q) (t1 t2 : Z) (q1 q2 : Q) :
  t1 <= t2 ->
  retry_time t1 (Some rate) = Finite q1 ->
  retry_time t2 (Some rate) = Finite q2 ->
  (q1 <= q2)%Q.
Proof.
  intros Ht. unfold retry_time. destruct (Qeq_bool rate 0); [discriminate |].
  intros [= <-] [= <-].
  apply Qplus_le_l. rewrite <- Zle_Qle. exact Ht.
Qed.

(** C6.  Under the token bucket, a call on a current record (with its
    [strategyData]) resolves to a result whose record is the one
    persisted; the outcome is [immediate] exactly when at least one token
    is available after the refill, and then the record has
    [deferred = false], [scheduledSendAt = null] and its count raised by
    one, whatever [deferred] was before. *)
Theorem token_bucket_admission_clears_deferral (this : EventTracker)
  (bucketSize refillRate : option Q) (now strategyNow : Z)
  (category id : string) (details : Json.value) (w : World)
  (r : EventRecord.t) (sd : StrategyData) :
  strategy this = TokenBucketStrategy bucketSize refillRate ->
  events w !! generateCompositeKey category id = Some r ->
  current now (generateDetailsHash details) r ->
  EventRecord.strategyData r = Some sd ->
  exists res w' r',
    trackEvent this now strategyNow category id details w = Return res w'
    /\ data res = Some r'
    /\ events w' !! generateCompositeKey category id = Some r'
    /\ (type res = Immediate
        <-> has_token (fst (refill (EventRecord.config r) sd strategyNow)) = true)
    /\ (type res = Immediate ->
        EventRecord.deferred r' = false
        /\ EventRecord.scheduledSendAt r' = None
        /\ EventRecord.count r' = EventRecord.count r + 1).
Proof.
  intros Hs Hk Hc Hsd.
  rewrite (trackEvent_current this now strategyNow category id details w r Hk Hc).
  rewrite Hs. simpl. rewrite (bucket_step _ _ _ _ _ sd) by exact Hsd. cbv zeta.
  destruct (has_token (fst (refill (EventRecord.config r) sd strategyNow))); simpl.
  - eexists _, _, _. split; [reflexivity |]. split; [reflexivity |].
    split; [apply lookup_insert_eq |]. simpl. repeat split.
  - eexists _, _, _. split; [reflexivity |]. split; [reflexivity |].
    split; [apply lookup_insert_eq |]. simpl. repeat split; discriminate.
Qed.

(** C7.  A tracker built with only the token bucket given (bucket size 5,
    refill rate 1 per second), seven occurrences of an absent key with
    every clock reading equal to [now]: five times [immediate], then twice
    [deferred], the two suppressed occurrences carrying
    [scheduledSendAt = now + (1 / 1) * 1000].  For every record, a
    suppressed occurrence at time [t] sets [scheduledSendAt] to
    [t + (1 / refillRate) * 1000] from the record's [config.refillRate],
    that is [t] plus [1 / refillRate] seconds for a non-zero rate, and
    for [t1 <= t2] the value for [t1] is not after the value for [t2]. *)
Theorem token_bucket_burst (now : Z) (category id : string) (details : Json.value)
  (w : World) :
  events w !! generateCompositeKey category id = None ->
  let this :=
    newEventTracker None None None None (Some (TokenBucketStrategy (Some 5%Q) (Some 1%Q))) in
  (exists rs w',
     trackEvents (back_to_back this now 7) category id details w = Return rs w'
     /\ result_outcomes rs
        = [Immediate; Immediate; Immediate; Immediate; Immediate; Deferred; Deferred]
     /\ result_schedules rs
        = [None; None; None; None; None;
           Some (retry_time now (Some 1%Q)); Some (retry_time now (Some 1%Q))])
  /\ (forall b rr opts t r sd ev,
        EventRecord.strategyData r = Some sd ->
        has_token (fst (refill (EventRecord.config r) sd t)) = false ->
        exists r',
          TokenBucketStrategy_track b rr opts t (Some r) ev = Ok (Deferred, r')
          /\ EventRecord.deferred r' = true
          /\ EventRecord.scheduledSendAt r'
             = Some (retry_time t (EventRecord.config r !! "refillRate")))
  /\ (forall rate t, ~ (rate == 0)%Q ->
        exists q, retry_time t (Some rate) = Finite q
                  /\ (q == inject_Z t + 1000 * (1 / rate))%Q)
  /\ (forall rate t1 t2 q1 q2,
        t1 <= t2 ->
        retry_time t1 (Some rate) = Finite q1 ->
        retry_time t2 (Some rate) = Finite q2 ->
        (q1 <= q2)%Q).
Proof.
  intros Hk this. split; [| split; [| split]].
  - assert (Hexpire : 0 <= expireTime (options this)) by (vm_compute; discriminate).
    assert (Hopen : ~ key_limit_reached (options this) (events w)).
    { intros [Hpos _]. vm_compute in Hpos. discriminate. }
    destruct (bucket_burst_from_absent this (Some 5%Q) (Some 1%Q) eq_refl
                Hexpire now category id details 6 w Hk Hopen)
      as (rs & w' & Hrun & Hout & Hsch).
    exists rs, w'. split; [exact Hrun |]. split; [exact Hout | exact Hsch].
  - intros b rr opts t r sd ev Hsd Htok.
    rewrite (bucket_step _ _ _ _ _ sd) by exact Hsd. cbv zeta. rewrite Htok.
    eexists. split; [reflexivity |]. simpl. split; reflexivity.
  - apply retry_time_finite.
  - apply retry_time_monotone.
Qed.

(** ** Every reachable store keeps each record under its own key *)

Lemma current_or_superseded (now : Z) (h : string) (r : EventRecord.t) :
  current now h r \/ superseded now h r.
Proof.
  unfold current, superseded.
  destruct (Z_le_gt_dec now (EventRecord.expiresAt r));
    destruct (String.eqb_spec (EventRecord.detailsHash r) h); auto; right; left; lia.
Qed.

Lemma key_limit_reached_dec (opts : TrackerOptions) (m : gmap string EventRecord.t) :
  key_limit_reached opts m \/ ~ key_limit_reached opts m.
Proof.
  unfold key_limit_reached.
  destruct (Z_lt_ge_dec 0 (maxKeys opts));
    destruct (Z_le_gt_dec (maxKeys opts) (InMemoryAdapter.size m)); auto; right; lia.
Qed.

Lemma shipped_step_key (s : Strategy) (opts : TrackerOptions) (now : Z)
  (r r' : EventRecord.t) (ev : EventData.t) (o : Outcome) :
  shipped s ->
  track s opts now (Some r) ev = Ok (o, r') ->
  EventRecord.key r' = EventRecord.key r.
Proof.
  intros [| b rr]; simpl.
  - rewrite counter_step. cbv zeta.
    destruct (EventRecord.deferred r); [intros [= _ <-]; reflexivity |].
    destruct (exceeds _ _); intros [= _ <-]; reflexivity.
  - destruct (EventRecord.strategyData r) as [sd |] eqn:Hsd.
    + rewrite (bucket_step _ _ _ _ _ sd) by exact Hsd. cbv zeta.
      destruct (has_token _); intros [= _ <-]; reflexivity.
    + unfold TokenBucketStrategy_track. rewrite Hsd. discriminate.
Qed.

Lemma persisted_keeps_keys (k : string) (tracked : Result (Outcome * EventRecord.t))
  (w : World) :
  stored_under_own_key (events w) ->
  (forall o r', tracked = Ok (o, r') -> EventRecord.key r' = k) ->
  stored_under_own_key (events (world_after (persisted k tracked w))).
Proof.
  intros Hwf Hkey. destruct tracked as [[o r'] | e]; simpl; [| exact Hwf].
  intros k' r. destruct (decide (k = k')) as [<- | Hne].
  - rewrite lookup_insert_eq. intros [= <-]. eapply Hkey. reflexivity.
  - rewrite lookup_insert_ne by exact Hne. apply Hwf.
Qed.

Lemma trackEvent_keeps_keys (this : EventTracker) (now strategyNow : Z)
  (category id : string) (details : Json.value) (w : World) :
  shipped (strategy this) ->
  stored_under_own_key (events w) ->
  stored_under_own_key
    (events (world_after (trackEvent this now strategyNow category id details w))).
Proof.
  intros Hs Hwf.
  set (k := generateCompositeKey category id).
  set (h := generateDetailsHash details).
  assert (Hnew : forall o r',
            track (strategy this) (options this) strategyNow None
              (event_data category id details) = Ok (o, r') ->
            EventRecord.key r' = k).
  { intros o r' Ht.
    destruct (shipped_creates (strategy this) (options this) strategyNow
                (event_data category id details) Hs) as (o0 & r0 & Ht0 & Hk0 & _).
    rewrite Ht in Ht0. injection Ht0 as -> ->. exact Hk0. }
  destruct (events w !! k) as [r |] eqn:Hk.
  - destruct (current_or_superseded now h r) as [Hc | Hsup].
    + rewrite (trackEvent_current this now strategyNow category id details w r Hk Hc).
      apply persisted_keeps_keys; [exact Hwf |].
      intros o r' Ht. rewrite (shipped_step_key _ _ _ _ _ _ _ Hs Ht). apply Hwf. exact Hk.
    + destruct (key_limit_reached_dec (options this) (events w)) as [Hfull | Hopen].
      * rewrite trackEvent_key_limit; [exact Hwf | | exact Hfull].
        fold k. rewrite Hk. exact Hsup.
      * rewrite trackEvent_new; [| | exact Hopen].
        -- apply persisted_keeps_keys; assumption.
        -- fold k. rewrite Hk. exact Hsup.
  - destruct (key_limit_reached_dec (options this) (events w)) as [Hfull | Hopen].
    + rewrite trackEvent_key_limit; [exact Hwf | | exact Hfull].
      fold k. rewrite Hk. exact I.
    + rewrite trackEvent_new; [| | exact Hopen].
      * apply persisted_keeps_keys; assumption.
      * fold k. rewrite Hk. exact I.
Qed.

Lemma updateConfig_keeps_keys (this : EventTracker) (category id : string)
  (newConfig : gmap string Q) (w : World) :
  stored_under_own_key (events w) ->
  stored_under_own_key (events (world_after (updateConfig this category id newConfig w))).
Proof.
  intros Hwf. unfold updateConfig, bind at 1, storage_get, InMemoryAdapter.get.
  destruct (events w !! generateCompositeKey category id) as [r |] eqn:Hk; [| exact Hwf].
  simpl. intros k' r'.
  destruct (decide (generateCompositeKey category id = k')) as [<- | Hne].
  - unfold InMemoryAdapter.set. rewrite lookup_insert_eq. intros [= <-]. simpl.
    apply Hwf. exact Hk.
  - unfold InMemoryAdapter.set. rewrite lookup_insert_ne by exact Hne. apply Hwf.
Qed.

Lemma processDeferredEvents_keeps_keys (this : EventTracker) (now : Z) (w : World) :
  stored_under_own_key (events w) ->
  stored_under_own_key (events (world_after (processDeferredEvents this now w))).
Proof.
  intros Hwf. rewrite processDeferredEvents_eq. cbv zeta. simpl.
  intros k r. rewrite lookup_drained. destruct (decide _); [discriminate | apply Hwf].
Qed.

Lemma empty_world_keeps_keys : stored_under_own_key (events empty_world).
Proof. intros k r Hk. simpl in Hk. rewrite lookup_empty in Hk. discriminate. Qed.

(** ** The details fingerprint *)

Lemma nested_payload_string (a x : string) (v1 v2 : Json.value) :
  a <> x ->
  Json.stringify (nested_payload a x v1) (Json.sort (Json.keys (nested_payload a x v1)))
  = Json.stringify (nested_payload a x v2) (Json.sort (Json.keys (nested_payload a x v2))).
Proof.
  intros Hax. unfold Json.stringify, nested_payload. simpl.
  rewrite String.eqb_refl. simpl.
  destruct (String.eqb_spec a x) as [-> | _]; [contradiction |].
  reflexivity.
Qed.

(** C10.  The payloads [{ a: { x: 1 } }] and [{ a: { x: 2 } }] are
    distinct, both serialize to [{"a":{}}] under the replacer [["a"]], and
    have the same fingerprint, as have any two payloads [{ a: { x: v } }]
    with [x] different from [a].  A record stored for the first payload is
    therefore current for the second: [trackEvent] hands it to the
    strategy instead of resetting it, and on a new tracker the second
    payload returns count 2 with the details of the first. *)
Theorem nested_fields_escape_the_fingerprint :
  nested_payload "a" "x" (Json.Num 1) <> nested_payload "a" "x" (Json.Num 2)
  /\ Json.stringify (nested_payload "a" "x" (Json.Num 1)) ["a"]
     = Some ("{" +:+ Json.dquote +:+ "a" +:+ Json.dquote +:+ ":{}}")
  /\ Json.stringify (nested_payload "a" "x" (Json.Num 2)) ["a"]
     = Some ("{" +:+ Json.dquote +:+ "a" +:+ Json.dquote +:+ ":{}}")
  /\ (forall a x v1 v2, a <> x ->
        generateDetailsHash (nested_payload a x v1)
        = generateDetailsHash (nested_payload a x v2))
  /\ (forall this now strategyNow category id w r,
        events w !! generateCompositeKey category id = Some r ->
        current now (generateDetailsHash (nested_payload "a" "x" (Json.Num 1))) r ->
        trackEvent this now strategyNow category id (nested_payload "a" "x" (Json.Num 2)) w
        = persisted (generateCompositeKey category id)
            (track (strategy this) (options this) strategyNow (Some r)
               (event_data category id (nested_payload "a" "x" (Json.Num 2)))) w)
  /\ (let this := newEventTracker None None None None None in
      let first :=
        trackEvent this 0 0 "api_error" "payment_gateway"
          (nested_payload "a" "x" (Json.Num 1)) empty_world in
      let second :=
        trackEvent this 1 1 "api_error" "payment_gateway"
          (nested_payload "a" "x" (Json.Num 2)) (world_after first) in
      (type <$> returned second) = Some Immediate
      /\ (EventRecord.count <$> returned_record second) = Some 2
      /\ (EventRecord.details <$> returned_record second)
         = Some (nested_payload "a" "x" (Json.Num 1))).
Proof.
  assert (Hsame : forall a x v1 v2, a <> x ->
            generateDetailsHash (nested_payload a x v1)
            = generateDetailsHash (nested_payload a x v2)).
  { intros a x v1 v2 Hax. unfold generateDetailsHash.
    change (Json.is_object (nested_payload a x v1)) with true.
    change (Json.is_object (nested_payload a x v2)) with true.
    cbv iota zeta. rewrite (nested_payload_string a x v1 v2) by exact Hax. reflexivity. }
  split; [discriminate |]. split; [reflexivity |]. split; [reflexivity |].
  split; [exact Hsame |]. split.
  - intros this now strategyNow category id w r Hk Hc.
    apply trackEvent_current; [exact Hk |].
    rewrite <- (Hsame "a"%string "x"%string (Json.Num 1) (Json.Num 2)) by discriminate.
    exact Hc.
  - vm_compute. repeat split.
Qed.

(** ** The scenarios of the README and the inputs at which a claim fails *)

(** C4.  The quick start of the README (limit 5, seven occurrences with
    the same details on a new tracker): the outcomes are five times
    [immediate], then [deferred], then [ignored], and the counts returned
    are 1 to 7: the ignored seventh occurrence returns count 7, where the
    claim and the README have 6. *)
Theorem quickstart_outcomes_and_counts :
  (result_outcomes <$> returned quickstart_run)
  = Some [Immediate; Immediate; Immediate; Immediate; Immediate; Deferred; Ignored]
  /\ (result_counts <$> returned quickstart_run)
     = Some [Some 1; Some 2; Some 3; Some 4; Some 5; Some 6; Some 7].
Proof. vm_compute. split; reflexivity. Qed.

(** C1 as stated fails at the key limit: with [maxKeys = 1], limit 5 and
    one other key stored, three occurrences of an absent key resolve to
    [ignored] each, where the claim has three times [immediate]. *)
Lemma absent_key_refused_at_key_limit :
  events one_key_world !! generateCompositeKey "api_error" "payment_gateway" = None
  /\ (result_outcomes
        <$> returned (trackEvents (back_to_back single_key_tracker 1 3)
                        "api_error" "payment_gateway" quickstart_details one_key_world))
     = Some [Ignored; Ignored; Ignored]
  /\ counter_outcomes (limit (options single_key_tracker)) 3
     = [Immediate; Immediate; Immediate].
Proof. vm_compute. repeat split. Qed.

(** C2 as stated fails in two places.  With [maxKeys = 1] and the key
    stored with count 2, an occurrence with other details is refused with
    [key_limit_reached] and the stored record keeps count 2, while the
    same call on a store that never saw the key persists a record with
    count 1.  With a limit of 0 the record that replaces an expired one
    has [deferred = true]. *)
Lemma stale_record_kept_at_key_limit :
  (EventRecord.detailsHash <$> events one_key_twice_world !! sample_key)
    <> Some (generateDetailsHash other_details)
  /\ returned (changed_details_call one_key_twice_world)
     = Some {| type := Ignored; reason := Some "key_limit_reached"; data := None |}
  /\ (EventRecord.count
        <$> events (world_after (changed_details_call one_key_twice_world)) !! sample_key)
     = Some 2
  /\ (EventRecord.count
        <$> returned_record (changed_details_call (never_seen sample_key one_key_twice_world)))
     = Some 1
  /\ (EventRecord.expiresAt <$> events (world_with (counter_record 3 false None)) !! sample_key)
     = Some 86400000
  /\ (EventRecord.deferred <$> returned_record expired_zero_limit_call) = Some true.
Proof. vm_compute. repeat split. discriminate. Qed.

(** C3 as stated fails for the token bucket: with a bucket of one token
    and no time passing, the record is deferred after the second
    occurrence and the third resolves to [deferred] again, not to
    [ignored]. *)
Lemma token_bucket_defers_again :
  (EventRecord.deferred <$> events spent_bucket_world !! sample_key) = Some true
  /\ (type <$> returned (trackEvent one_token_tracker 0 0 "database_errors" "user-service"
                           quickstart_details spent_bucket_world))
     = Some Deferred
  /\ (result_outcomes
        <$> returned (trackEvents (back_to_back one_token_tracker 0 3)
                        "database_errors" "user-service" quickstart_details empty_world))
     = Some [Immediate; Deferred; Deferred].
Proof. vm_compute. repeat split. Qed.

(** ** The theorems at concrete inputs *)

(** The quick start of the README as an instance of the theorem on runs
    of the counter strategy. *)
Lemma counter_limit_witness :
  events empty_world !! generateCompositeKey "database_errors" "user-service" = None
  /\ no_expiry_after_first (back_to_back quickstart_tracker 0 7)
  /\ exists rs w',
       trackEvents (back_to_back quickstart_tracker 0 7)
         "database_errors" "user-service" quickstart_details empty_world = Return rs w'
       /\ result_outcomes rs = counter_outcomes 5 7
       /\ result_counts rs = counts_from 0 7.
Proof.
  assert (Hne : no_expiry_after_first (back_to_back quickstart_tracker 0 7))
    by (cbn; repeat split; lia).
  split; [reflexivity |]. split; [exact Hne |].
  apply (counter_limit_then_deferred_then_ignored (back_to_back quickstart_tracker 0 7)
           "database_errors" "user-service" quickstart_details empty_world 5).
  - repeat constructor.
  - reflexivity.
  - intros c rest [= <- <-]. split; [reflexivity |].
    intros [Hpos _]. vm_compute in Hpos. discriminate.
  - exact Hne.
Defined.

(** An expired record of the counter strategy, replaced. *)
Lemma superseded_record_witness :
  events (world_with (counter_record 3 false None)) !! sample_key
    = Some (counter_record 3 false None)
  /\ superseded 86400001 (generateDetailsHash quickstart_details)
       (counter_record 3 false None)
  /\ exists res w',
       trackEvent quickstart_tracker 86400001 86400002
         "database_errors" "user-service" quickstart_details
         (world_with (counter_record 3 false None)) = Return res w'
       /\ trackEvent quickstart_tracker 86400001 86400002
            "database_errors" "user-service" quickstart_details
            (never_seen sample_key (world_with (counter_record 3 false None)))
          = Return res w'
       /\ exists r',
            data res = Some r' /\ events w' !! sample_key = Some r'
            /\ EventRecord.count r' = 1
            /\ EventRecord.lastEventTime r' = 86400002
            /\ EventRecord.expiresAt r' = 86400002 + expireTime (options quickstart_tracker)
            /\ EventRecord.details r' = quickstart_details
            /\ EventRecord.detailsHash r' = generateDetailsHash quickstart_details.
Proof.
  assert (Hk : events (world_with (counter_record 3 false None)) !! sample_key
               = Some (counter_record 3 false None)) by apply lookup_singleton_eq.
  assert (Hsup : superseded 86400001 (generateDetailsHash quickstart_details)
                   (counter_record 3 false None)).
  { left. simpl. unfold DEFAULT_EXPIRE_TIME_MS. lia. }
  split; [exact Hk |]. split; [exact Hsup |].
  apply (superseded_record_is_replaced quickstart_tracker 86400001 86400002
           "database_errors" "user-service" quickstart_details
           (world_with (counter_record 3 false None)) (counter_record 3 false None)).
  - constructor.
  - exact Hk.
  - exact Hsup.
  - intros [Hpos _]. vm_compute in Hpos. discriminate.
Defined.

(** Three occurrences on a deferred record of the counter strategy. *)
Lemma counter_ignores_witness :
  EventRecord.deferred deferred_record = true
  /\ no_expiry (EventRecord.expiresAt deferred_record) (back_to_back quickstart_tracker 10 3)
  /\ exists rs w' r',
       trackEvents (back_to_back quickstart_tracker 10 3)
         "database_errors" "user-service" quickstart_details (world_with deferred_record)
       = Return rs w'
       /\ result_outcomes rs = replicate 3 Ignored
       /\ events w' !! generateCompositeKey "database_errors" "user-service" = Some r'
       /\ EventRecord.deferred r' = true
       /\ EventRecord.scheduledSendAt r' = EventRecord.scheduledSendAt deferred_record
       /\ EventRecord.count r' = EventRecord.count deferred_record + Z.of_nat 3.
Proof.
  assert (Hne : no_expiry (EventRecord.expiresAt deferred_record)
                  (back_to_back quickstart_tracker 10 3)).
  { cbn. unfold DEFAULT_EXPIRE_TIME_MS. repeat split; lia. }
  split; [reflexivity |]. split; [exact Hne |].
  apply (counter_ignores_while_deferred (back_to_back quickstart_tracker 10 3)
           "database_errors" "user-service" quickstart_details
           (world_with deferred_record) deferred_record).
  - repeat constructor.
  - apply lookup_singleton_eq.
  - reflexivity.
  - reflexivity.
  - exact Hne.
Defined.

(** A second key refused by a tracker with [maxKeys = 1]. *)
Lemma key_limit_guard_witness :
  key_limit_reached (options single_key_tracker) (events one_key_world)
  /\ trackEvent single_key_tracker 1 1 "api_error" "payment_gateway" gateway_details
       one_key_world
     = Return {| type := Ignored; reason := Some "key_limit_reached"; data := None |}
         {| events := events one_key_world;
            emitted := emitted one_key_world
              ++ [ {| event := "ignored";
                      payload := IgnoredInfo "key_limit_reached" "api_error"
                                   "payment_gateway" gateway_details |} ] |}.
Proof.
  assert (Hfull : key_limit_reached (options single_key_tracker) (events one_key_world)).
  { split; [vm_compute; reflexivity | vm_compute; discriminate]. }
  split; [exact Hfull |].
  apply (proj1 (key_limit_guard single_key_tracker 1 1 "api_error" "payment_gateway"
                  gateway_details one_key_world Hfull)).
  vm_compute. exact I.
Defined.

(** A deferred record with an empty bucket, two seconds later: admitted
    and no longer deferred. *)
Lemma token_bucket_admission_witness :
  EventRecord.deferred empty_bucket_record = true
  /\ (type <$> returned (trackEvent one_token_tracker 2000 2000
                           "database_errors" "user-service" quickstart_details
                           (world_with empty_bucket_record)))
     = Some Immediate
  /\ exists res w' r',
       trackEvent one_token_tracker 2000 2000
         "database_errors" "user-service" quickstart_details
         (world_with empty_bucket_record) = Return res w'
       /\ data res = Some r'
       /\ events w' !! generateCompositeKey "database_errors" "user-service" = Some r'
       /\ (type res = Immediate
           <-> has_token (fst (refill (EventRecord.config empty_bucket_record)
                                  {| tokens := 0%Q; lastRefill := 0 |} 2000)) = true)
       /\ (type res = Immediate ->
           EventRecord.deferred r' = false
           /\ EventRecord.scheduledSendAt r' = None
           /\ EventRecord.count r' = EventRecord.count empty_bucket_record + 1).
Proof.
  split; [reflexivity |]. split; [vm_compute; reflexivity |].
  apply (token_bucket_admission_clears_deferral one_token_tracker (Some 1%Q) (Some 1%Q)
           2000 2000 "database_errors" "user-service" quickstart_details
           (world_with empty_bucket_record) empty_bucket_record
           {| tokens := 0%Q; lastRefill := 0 |}).
  - reflexivity.
  - apply lookup_singleton_eq.
  - split; [simpl; unfold DEFAULT_EXPIRE_TIME_MS; lia | reflexivity].
  - reflexivity.
Defined.

(** The burst on a new tracker at time [0]. *)
Lemma token_bucket_burst_witness :
  events empty_world !! generateCompositeKey "api_error" "payment_gateway" = None
  /\ exists rs w',
       trackEvents
         (back_to_back
            (newEventTracker None None None None
               (Some (TokenBucketStrategy (Some 5%Q) (Some 1%Q)))) 0 7)
         "api_error" "payment_gateway" gateway_details empty_world = Return rs w'
       /\ result_outcomes rs
          = [Immediate; Immediate; Immediate; Immediate; Immediate; Deferred; Deferred]
       /\ result_schedules rs
          = [None; None; None; None; None;
             Some (retry_time 0 (Some 1%Q)); Some (retry_time 0 (Some 1%Q))].
Proof.
  split; [reflexivity |].
  apply (proj1 (token_bucket_burst 0 "api_error" "payment_gateway" gateway_details
                  empty_world eq_refl)).
Defined.

(** A store with one due record: the first call drains it, the second
    returns the empty batch. *)
Lemma processDeferredEvents_twice_witness :
  stored_under_own_key (events (world_with deferred_record))
  /\ InMemoryAdapter.findDueDeferred 3600000 (events (world_with deferred_record))
     = [deferred_record]
  /\ exists batch w',
       processDeferredEvents quickstart_tracker 3600000 (world_with deferred_record)
       = Return batch w'
       /\ batch = InMemoryAdapter.findDueDeferred 3600000 (events (world_with deferred_record))
       /\ (forall r, r ∈ batch -> events w' !! EventRecord.key r = None)
       /\ InMemoryAdapter.findDueDeferred 3600000 (events w') = []
       /\ processDeferredEvents quickstart_tracker 3600000 w' = Return [] w'.
Proof.
  assert (Hwf : stored_under_own_key (events (world_with deferred_record))).
  { intros k r Hk. unfold world_with in Hk. cbn [events] in Hk.
    apply lookup_singleton_Some in Hk as [<- <-]. reflexivity. }
  split; [exact Hwf |]. split; [vm_compute; reflexivity |].
  apply (processDeferredEvents_twice quickstart_tracker 3600000 3600000
           (world_with deferred_record) Hwf).
  intros k r _ Hdue. exact Hdue.
Defined.

(** * Further properties of the code *)

